(** * Verification of the AstPool -> LpBox codemod scripts

    Shallow embedding of the three migration scripts

      - [scripts/astpool_to_lpbox.py]   (Pass 1, representation migration)
      - [scripts/fix_gen_signatures.py] (Pass 2, signature normalization)
      - [scripts/fix_imports.py]        (Pass 3, import cleanup)

    The scripts are sequences of [re.sub] calls over the text of a file,
    followed by a conditional write.  The development has three layers:

      - [Re]: the fragment of Python's [re] that the scripts use, as a
        backtracking matcher with the priorities of the [sre] engine, and
        [re.sub] on top of it;
      - [Pass1], [Pass2], [Pass3]: the rule lists of the scripts, one
        definition per source line;
      - [Run]: files, the conditional write, directory traversal and the
        entry points, in a small state-and-exit monad.

    Texts are lists of 8-bit characters.  The classes [\w] and [\s] are the
    ones of Python's [str] patterns on code points below 128. *)

From Stdlib Require Import Ascii String List Bool Arith Lia.
Import ListNotations.
Local Open Scope list_scope.

Set Implicit Arguments.

(* ================================================================== *)
(** * Texts *)

Definition text := list ascii.

(** The characters of a string literal. *)
Definition t (s : string) : text := list_ascii_of_string s.

Definition nl : ascii := "010"%char.
Definition NL : string := String nl EmptyString.

Fixpoint text_eqb (a b : text) : bool :=
  match a, b with
  | [], [] => true
  | x :: a', y :: b' => Ascii.eqb x y && text_eqb a' b'
  | _, _ => false
  end.

(** [s.startswith(p)] *)
Fixpoint starts_with (p s : text) : bool :=
  match p, s with
  | [], _ => true
  | c :: p', x :: s' => Ascii.eqb x c && starts_with p' s'
  | _ :: _, [] => false
  end.

(** [p in s] *)
Fixpoint contains (p s : text) : bool :=
  starts_with p s ||
  match s with
  | [] => false
  | _ :: s' => contains p s'
  end.

(** [s.replace(old, new, 1)], for a non-empty [old]. *)
Fixpoint replace_first (old new s : text) : text :=
  if starts_with old s then new ++ skipn (length old) s
  else match s with
       | [] => []
       | c :: s' => c :: replace_first old new s'
       end.

(** [s.endswith(p)] *)
Definition ends_with (p s : text) : bool := starts_with (rev p) (rev s).

(* ================================================================== *)
(** * The regular expressions of the scripts *)

Module Re.

(** [\w] and [\s] of a [str] pattern, on ASCII. *)
Definition is_word (c : ascii) : bool :=
  let n := nat_of_ascii c in
  ((48 <=? n) && (n <=? 57)) || ((65 <=? n) && (n <=? 90)) ||
  ((97 <=? n) && (n <=? 122)) || (n =? 95).

Definition is_space (c : ascii) : bool :=
  let n := nat_of_ascii c in
  ((9 <=? n) && (n <=? 13)) || ((28 <=? n) && (n <=? 32)).

(** Character classes: [\s], [\w], [.] (no DOTALL) and [[^c]]. *)
Inductive cls : Type :=
| Space
| Word
| Dot
| Not (c : ascii).

Definition in_cls (k : cls) (x : ascii) : bool :=
  match k with
  | Space => is_space x
  | Word => is_word x
  | Dot => negb (Ascii.eqb x nl)
  | Not c => negb (Ascii.eqb x c)
  end.

(** Pattern syntax.  Every quantifier of the scripts' patterns that can
    repeat is applied to a single character class, so [Star] takes a
    class; [Eol] is [$] under [re.MULTILINE], its only use. *)
Inductive regex : Type :=
| Lit (l : string)              (* literal characters *)
| Cls (k : cls)                 (* one character of a class *)
| Star (k : cls)                (* k*, greedy *)
| Opt (r : regex)               (* r?, greedy *)
| Seq (r1 r2 : regex)
| Alt (r1 r2 : regex)           (* r1|r2, left first *)
| Group (n : nat) (r : regex)   (* capturing group number n *)
| Look (r : regex)              (* (?=r) *)
| WordB                         (* \b *)
| Eol.                          (* $ with MULTILINE *)

(** k+, greedy *)
Definition Plus (k : cls) : regex := Seq (Cls k) (Star k).

Declare Scope re_scope.
Delimit Scope re_scope with re.
Bind Scope re_scope with regex.
Infix ";;" := Seq (at level 61, right associativity) : re_scope.

(** Captured groups, most recent binding first. *)
Definition caps := list (nat * text).

Fixpoint group (n : nat) (cs : caps) : text :=
  match cs with
  | [] => []
  | (m, s) :: cs' => if Nat.eqb m n then s else group n cs'
  end.

(** The matcher is written in continuation-passing style: [k] is what
    remains to be matched, a failing continuation makes the matcher
    try its next alternative.  A position is the character before it
    ([None] at the start of the text) and the text from it on. *)
Definition cont := option ascii -> text -> caps -> option (text * caps).

Fixpoint lit (l : text) (prev : option ascii) (s : text)
  : option (option ascii * text) :=
  match l with
  | [] => Some (prev, s)
  | c :: l' =>
      match s with
      | x :: s' => if Ascii.eqb x c then lit l' (Some x) s' else None
      | [] => None
      end
  end.

Fixpoint star (k : cls) (prev : option ascii) (s : text) (cs : caps)
  (kont : cont) : option (text * caps) :=
  match s with
  | x :: s' =>
      if in_cls k x then
        match star k (Some x) s' cs kont with
        | Some r => Some r
        | None => kont prev s cs
        end
      else kont prev s cs
  | [] => kont prev s cs
  end.

Definition word_before (prev : option ascii) : bool :=
  match prev with Some c => is_word c | None => false end.

Definition word_after (s : text) : bool :=
  match s with c :: _ => is_word c | [] => false end.

Definition at_eol (s : text) : bool :=
  match s with c :: _ => Ascii.eqb c nl | [] => true end.

Fixpoint m (r : regex) (prev : option ascii) (s : text) (cs : caps)
  (kont : cont) {struct r} : option (text * caps) :=
  match r with
  | Lit l =>
      match lit (t l) prev s with
      | Some (p', s') => kont p' s' cs
      | None => None
      end
  | Cls k =>
      match s with
      | x :: s' => if in_cls k x then kont (Some x) s' cs else None
      | [] => None
      end
  | Star k => star k prev s cs kont
  | Opt r1 =>
      match m r1 prev s cs kont with
      | Some x => Some x
      | None => kont prev s cs
      end
  | Seq r1 r2 => m r1 prev s cs (fun p' s' cs' => m r2 p' s' cs' kont)
  | Alt r1 r2 =>
      match m r1 prev s cs kont with
      | Some x => Some x
      | None => m r2 prev s cs kont
      end
  | Group n r1 =>
      m r1 prev s cs
        (fun p' s' cs' =>
           kont p' s' ((n, firstn (length s - length s') s) :: cs'))
  | Look r1 =>
      match m r1 prev s cs (fun _ s' cs' => Some (s', cs')) with
      | Some _ => kont prev s cs
      | None => None
      end
  | WordB =>
      if xorb (word_before prev) (word_after s) then kont prev s cs else None
  | Eol => if at_eol s then kont prev s cs else None
  end.

(** A match of [r] starting at the position [(prev, s)]: the text after
    the match and the groups.  With [adv] an empty match is refused
    ([must_advance] of the engine, set after an empty match). *)
Definition match_at (adv : bool) (r : regex) (prev : option ascii) (s : text)
  : option (text * caps) :=
  m r prev s []
    (fun _ s' cs =>
       if adv && (length s' =? length s) then None else Some (s', cs)).

(** Replacement templates: literal text and group references. *)
Inductive titem : Type :=
| TLit (l : string)
| TRef (n : nat).

Definition template := list titem.

Fixpoint expand (tp : template) (cs : caps) : text :=
  match tp with
  | [] => []
  | TLit l :: tp' => t l ++ expand tp' cs
  | TRef n :: tp' => group n cs ++ expand tp' cs
  end.

(** [count] of [re.sub]: [None] is the default (no limit). *)
Definition exhausted (count : option nat) : bool :=
  match count with Some 0 => true | _ => false end.

Definition dec (count : option nat) : option nat :=
  match count with Some n => Some (pred n) | None => None end.

(** [re.sub]: scan from the left, at each position try a match; a match
    is replaced by the expanded template and the scan resumes at its end.
    [skip] counts the characters of the current match still to be
    dropped. *)
Fixpoint sub_go (r : regex) (tp : template) (count : option nat) (skip : nat)
  (prev : option ascii) (s : text) {struct s} : text :=
  match s with
  | [] =>
      match skip with
      | 0 =>
          if exhausted count then []
          else match match_at false r prev [] with
               | Some (_, cs) => expand tp cs
               | None => []
               end
      | S _ => []
      end
  | c :: s' =>
      match skip with
      | S n => sub_go r tp count n (Some c) s'
      | 0 =>
          if exhausted count then s
          else
            match match_at false r prev s with
            | None => c :: sub_go r tp count 0 (Some c) s'
            | Some (rest, cs) =>
                match length s - length rest with
                | S n => expand tp cs ++ sub_go r tp (dec count) n (Some c) s'
                | 0 =>
                    (* empty match: replaced, then a non-empty match is
                       looked for at the same position *)
                    expand tp cs ++
                    (if exhausted (dec count) then s
                     else
                       match match_at true r prev s with
                       | Some (rest2, cs2) =>
                           expand tp cs2 ++
                           sub_go r tp (dec (dec count))
                             (length s - length rest2 - 1) (Some c) s'
                       | None => c :: sub_go r tp (dec count) 0 (Some c) s'
                       end)
                end
            end
      end
  end.

(** [re.sub(r, tp, s)] *)
Definition sub (r : regex) (tp : template) (s : text) : text :=
  sub_go r tp None 0 None s.

(** [re.sub(r, tp, s, 1)] *)
Definition sub1 (r : regex) (tp : template) (s : text) : text :=
  sub_go r tp (Some 1) 0 None s.

End Re.

Import Re.
Local Open Scope re_scope.

(* ================================================================== *)
(** * Pass 1: [astpool_to_lpbox.py] *)

Module Pass1.

(** The patterns, in the order of [process_file]. *)
Definition re_ExprId : regex := WordB ;; Lit "ExprId" ;; WordB.
Definition re_StmtId : regex := WordB ;; Lit "StmtId" ;; WordB.
Definition re_BoxExpr : regex := Lit "Box<Expr>".
Definition re_BoxStmt : regex := Lit "Box<Stmt>".
Definition re_BoxNew : regex := Lit "Box::new(".
(** [,\s*(mut\s+)?pool:\s*AstPool] *)
Definition re_pool_param : regex :=
  Lit "," ;; Star Space ;; Opt (Group 1 (Lit "mut" ;; Plus Space)) ;;
  Lit "pool:" ;; Star Space ;; Lit "AstPool".
(** [\(pool:\s*AstPool,] *)
Definition re_pool_first : regex := Lit "(pool:" ;; Star Space ;; Lit "AstPool,".
(** [\(pool:\s*AstPool\)] *)
Definition re_pool_only : regex := Lit "(pool:" ;; Star Space ;; Lit "AstPool)".
(** [->\s*\(Expr,\s*AstPool\)] *)
Definition re_ret_Expr : regex :=
  Lit "->" ;; Star Space ;; Lit "(Expr," ;; Star Space ;; Lit "AstPool)".
Definition re_ret_Stmt : regex :=
  Lit "->" ;; Star Space ;; Lit "(Stmt," ;; Star Space ;; Lit "AstPool)".
(** [pool\.expr\((\w+)\)] and its two siblings *)
Definition re_pool_expr : regex := Lit "pool.expr(" ;; Group 1 (Plus Word) ;; Lit ")".
Definition re_pool_expr_mut : regex :=
  Lit "pool.expr_mut(" ;; Group 1 (Plus Word) ;; Lit ")".
Definition re_pool_stmt : regex := Lit "pool.stmt(" ;; Group 1 (Plus Word) ;; Lit ")".
(** [pool\.alloc_expr\(([^,]+),\s*([^)]+)\)\?] *)
Definition re_alloc_expr : regex :=
  Lit "pool.alloc_expr(" ;; Group 1 (Plus (Not ",")) ;; Lit "," ;; Star Space ;;
  Group 2 (Plus (Not ")")) ;; Lit ")?".
(** [(\n)(use )] *)
Definition re_first_use : regex := Group 1 (Lit NL) ;; Group 2 (Lit "use ").
(** [use crate::(?:lpscript::)?compiler::ast::\{[^}]*AstPool[^}]*\};?\n] *)
Definition re_ast_import : regex :=
  Lit "use crate::" ;; Opt (Lit "lpscript::") ;; Lit "compiler::ast::{" ;;
  Star (Not "}") ;; Lit "AstPool" ;; Star (Not "}") ;; Lit "}" ;;
  Opt (Lit ";") ;; Lit NL.
Definition re_list_AstPool : regex := Lit "," ;; Star Space ;; Lit "AstPool".
Definition re_list_ExprId : regex := Lit "," ;; Star Space ;; Lit "ExprId".
Definition re_list_StmtId : regex := Lit "," ;; Star Space ;; Lit "StmtId".
Definition re_Box_import : regex := Lit "use alloc::boxed::Box;" ;; Lit NL.

(** Step 1: replace type signatures. *)
Definition rename_types (content : text) : text :=
  let content := sub re_ExprId [TLit "Expr"] content in
  sub re_StmtId [TLit "Stmt"] content.

(** Steps 1 to 7: the substitutions before the import directives. *)
Definition rules (content : text) : text :=
  (* 1. Replace type signatures *)
  let content := rename_types content in
  (* 2. Replace Box<Expr> and Box<Stmt> with LpBox versions *)
  let content := sub re_BoxExpr [TLit "LpBox<Expr>"] content in
  let content := sub re_BoxStmt [TLit "LpBox<Stmt>"] content in
  (* 3. Replace Box::new with LpBox::try_new *)
  let content := sub re_BoxNew [TLit "LpBox::try_new("] content in
  (* 4. Remove AstPool parameters from function signatures *)
  let content := sub re_pool_param [] content in
  let content := sub re_pool_first [TLit "("] content in
  let content := sub re_pool_only [TLit "()"] content in
  (* 5. Remove AstPool return types *)
  let content := sub re_ret_Expr [TLit "-> Expr"] content in
  let content := sub re_ret_Stmt [TLit "-> Stmt"] content in
  (* 6. Remove pool.expr(id) dereferences *)
  let content := sub re_pool_expr [TRef 1] content in
  let content := sub re_pool_expr_mut [TRef 1] content in
  let content := sub re_pool_stmt [TRef 1] content in
  (* 7. Remove pool.alloc_expr wrapping *)
  sub re_alloc_expr [TLit "Expr::new("; TRef 1; TLit ", "; TRef 2; TLit ")"] content.

(** Step 8: add the LpBox import if the file was modified and lacks it. *)
Definition add_lpbox_import (original content : text) : text :=
  if negb (text_eqb content original)
     && negb (contains (t "use lp_pool::LpBox") content)
     && contains (t "LpBox") content
  then
    if contains (t "extern crate alloc;") content then
      replace_first (t "extern crate alloc;")
        (t "extern crate alloc;" ++ nl :: t "use lp_pool::LpBox;") content
    else if contains (nl :: t "use ") content then
      sub1 re_first_use [TRef 1; TLit "use lp_pool::LpBox;"; TLit NL; TRef 2] content
    else content
  else content.

(** Step 9: remove the Box import if no longer needed. *)
Definition remove_box_import (content : text) : text :=
  if negb (contains (t "Box<") content) && negb (contains (t "Box::") content)
  then sub re_Box_import [] content
  else content.

(** Step 10, first two substitutions. *)
Definition remove_ast_imports (content : text) : text :=
  let content := sub re_ast_import [] content in
  sub re_list_AstPool [] content.

(** Step 10, last two substitutions. *)
Definition remove_id_imports (content : text) : text :=
  let content := sub re_list_ExprId [] content in
  sub re_list_StmtId [] content.

(** The text before the last two substitutions of step 10. *)
Definition before_id_imports (original : text) : text :=
  let content := rules original in
  let content := add_lpbox_import original content in
  let content := remove_box_import content in
  remove_ast_imports content.

(** The final [content] of [process_file] for a file holding [original]. *)
Definition transform (original : text) : text :=
  remove_id_imports (before_id_imports original).

(** Pass 1 without the substitutions for [,\s*ExprId] and [,\s*StmtId]:
    [process_file] with its last two assignments to [content] removed. *)
Definition transform_without_id_rules (original : text) : text :=
  let content := rules original in
  let content := add_lpbox_import original content in
  let content := remove_box_import content in
  let content := sub re_ast_import [] content in
  sub re_list_AstPool [] content.

End Pass1.

(* ================================================================== *)
(** * Pass 2: [fix_gen_signatures.py] *)

Module Pass2.

(** [,\s*pool:\s*&AstPool] and [\(pool:\s*&AstPool,] *)
Definition re_pool_param : regex :=
  Lit "," ;; Star Space ;; Lit "pool:" ;; Star Space ;; Lit "&AstPool".
Definition re_pool_first : regex := Lit "(pool:" ;; Star Space ;; Lit "&AstPool,".

(** [\bname:\s*Ty\b], the shape of the seventeen parameter rules. *)
Definition re_param (name ty : string) : regex :=
  WordB ;; Lit name ;; Lit ":" ;; Star Space ;; Lit ty ;; WordB.

(** [\bgen_(\w+)_id\b] *)
Definition re_gen_id : regex :=
  WordB ;; Lit "gen_" ;; Group 1 (Plus Word) ;; Lit "_id" ;; WordB.

(** [self\.gen_expr_id\(pool,\s*] and [self\.gen_stmt_id\(pool,\s*] *)
Definition re_call_expr : regex := Lit "self.gen_expr_id(pool," ;; Star Space.
Definition re_call_stmt : regex := Lit "self.gen_stmt_id(pool," ;; Star Space.

Definition re_pool_expr : regex := Lit "pool.expr(" ;; Group 1 (Plus Word) ;; Lit ")".
Definition re_pool_stmt : regex := Lit "pool.stmt(" ;; Group 1 (Plus Word) ;; Lit ")".

(** The final [content] of [fix_gen_file]. *)
Definition transform (original : text) : text :=
  let content := original in
  (* Remove pool parameter *)
  let content := sub re_pool_param [] content in
  let content := sub re_pool_first [TLit "("] content in
  (* Replace ExprId/StmtId parameters with &Expr/&Stmt *)
  let content := sub (re_param "left" "ExprId") [TLit "left: &Expr"] content in
  let content := sub (re_param "right" "ExprId") [TLit "right: &Expr"] content in
  let content := sub (re_param "operand" "ExprId") [TLit "operand: &Expr"] content in
  let content := sub (re_param "expr_id" "ExprId") [TLit "expr: &Expr"] content in
  let content := sub (re_param "expr" "ExprId") [TLit "expr: &Expr"] content in
  let content := sub (re_param "condition" "ExprId") [TLit "condition: &Expr"] content in
  let content := sub (re_param "true_expr" "ExprId") [TLit "true_expr: &Expr"] content in
  let content := sub (re_param "false_expr" "ExprId") [TLit "false_expr: &Expr"] content in
  let content := sub (re_param "value" "ExprId") [TLit "value: &Expr"] content in
  let content := sub (re_param "stmt_id" "StmtId") [TLit "stmt: &Stmt"] content in
  let content := sub (re_param "stmt" "StmtId") [TLit "stmt: &Stmt"] content in
  let content := sub (re_param "body" "StmtId") [TLit "body: &Stmt"] content in
  let content := sub (re_param "then_stmt" "StmtId") [TLit "then_stmt: &Stmt"] content in
  let content :=
    sub (re_param "else_stmt" "Option<StmtId>") [TLit "else_stmt: Option<&Stmt>"] content in
  let content :=
    sub (re_param "init" "&Option<StmtId>") [TLit "init: Option<&Stmt>"] content in
  let content := sub (re_param "args" "&Vec<ExprId>") [TLit "args: &Vec<Expr>"] content in
  let content := sub (re_param "args" "&[ExprId]") [TLit "args: &[Expr]"] content in
  (* Remove _id suffix from function names *)
  let content := sub re_gen_id [TLit "gen_"; TRef 1] content in
  (* 2. Fix function calls *)
  let content := sub re_call_expr [TLit "self.gen_expr("] content in
  let content := sub re_call_stmt [TLit "self.gen_stmt("] content in
  (* 3. Remove pool.expr() and pool.stmt() dereferences *)
  let content := sub re_pool_expr [TRef 1] content in
  sub re_pool_stmt [TRef 1] content.

(** [fix_gen_file]: the changed flag and the new content. *)
Definition fix_gen_file (content : text) : bool * text :=
  let new_content := transform content in
  (negb (text_eqb new_content content), new_content).

End Pass2.

(* ================================================================== *)
(** * Pass 3: [fix_imports.py] *)

Module Pass3.

(** [,\s*AstPool\s*,], [,\s*AstPool\s*}] and [\{\s*AstPool\s*,] *)
Definition re_mid : regex :=
  Lit "," ;; Star Space ;; Lit "AstPool" ;; Star Space ;; Lit ",".
Definition re_last : regex :=
  Lit "," ;; Star Space ;; Lit "AstPool" ;; Star Space ;; Lit "}".
Definition re_first : regex :=
  Lit "{" ;; Star Space ;; Lit "AstPool" ;; Star Space ;; Lit ",".
(** [use\s+crate::compiler::ast::\{\s*AstPool\s*\};?\n] *)
Definition re_only : regex :=
  Lit "use" ;; Plus Space ;; Lit "crate::compiler::ast::{" ;; Star Space ;;
  Lit "AstPool" ;; Star Space ;; Lit "}" ;; Opt (Lit ";") ;; Lit NL.

(** [\bname\b(?=.*;\s*$|.*,|.*})] under [re.MULTILINE] *)
Definition re_in_list (name : string) : regex :=
  WordB ;; Lit name ;; WordB ;;
  Look (Alt (Star Dot ;; Lit ";" ;; Star Space ;; Eol)
       (Alt (Star Dot ;; Lit ",")
            (Star Dot ;; Lit "}"))).

(** The final [content] of [fix_imports]. *)
Definition transform (original : text) : text :=
  let content := original in
  (* 1. Remove AstPool from imports *)
  let content := sub re_mid [TLit ", "] content in
  let content := sub re_last [TLit "}"] content in
  let content := sub re_first [TLit "{"] content in
  let content := sub re_only [] content in
  (* 2. Replace ExprId with Expr in imports *)
  let content := sub (re_in_list "ExprId") [TLit "Expr"] content in
  (* 3. Replace StmtId with Stmt in imports *)
  sub (re_in_list "StmtId") [TLit "Stmt"] content.

(** [fix_imports]: the changed flag and the new content. *)
Definition fix_imports (content : text) : bool * text :=
  let new_content := transform content in
  (negb (text_eqb new_content content), new_content).

End Pass3.

(* ================================================================== *)
(** * Files, traversal and the entry points *)

Module Run.

Definition path := string.
Bind Scope string_scope with path.

(** A file on disk: its bytes and its modification time. *)
Record file : Type := mkFile { content : text; mtime : nat }.

(** The lines the scripts print. *)
Inductive line : Type :=
| Processing (p : path)        (* "Processing: {filepath}" *)
| ErrorNotFound                (* "Error: {lpscript_dir} not found" *)
| Running                      (* "Running AstPool -> LpBox codemod on ..." *)
| Complete (modified : nat)    (* "Codemod complete. Modified {modified} files." *)
| NextSteps                    (* the five lines after it *)
| Fixed (p : path)             (* "Fixed: {path}" *)
| FixedTotal (fixed : nat).    (* "Fixed {fixed} files" *)

(** The state the scripts act on.  [tree] lists the files below the root
    directory [crates/lp-script/src], in traversal order; it is [None]
    when that directory does not exist.  [clock] is the time the next
    write stamps on a file; every write advances it. *)
Record world : Type := mkWorld {
  tree : option (list (path * file));
  clock : nat;
  stdout : list line
}.

(** A run returns, leaves through [sys.exit], or dies of an uncaught
    [OSError]. *)
Inductive outcome (A : Type) : Type :=
| Ret (a : A) (w : world)
| Exit (code : nat) (w : world)
| Raise (w : world).

Arguments Ret {A} a w.
Arguments Exit {A} code w.
Arguments Raise {A} w.

Definition M (A : Type) : Type := world -> outcome A.

Definition ret {A} (a : A) : M A := fun w => Ret a w.

Definition bind {A B} (c : M A) (f : A -> M B) : M B :=
  fun w =>
    match c w with
    | Ret a w' => f a w'
    | Exit code w' => Exit code w'
    | Raise w' => Raise w'
    end.

Declare Scope run_scope.
Delimit Scope run_scope with run.
Notation "'do' x <- c ; k" := (bind c (fun x => k))
  (at level 10, x name, c at level 100, k at level 200) : run_scope.
Local Open Scope run_scope.

(** [sys.exit(code)] *)
Definition exit {A} (code : nat) : M A := fun w => Exit code w.

(** [print(...)] *)
Definition print (l : line) : M unit :=
  fun w => Ret tt (mkWorld (tree w) (clock w) (stdout w ++ [l])).

(** [lpscript_dir.exists()] *)
Definition root_exists : M bool :=
  fun w => Ret (match tree w with Some _ => true | None => false end) w.

(** The paths [root.glob("**/*" + suffix)] yields; a directory that does
    not exist yields none. *)
Definition glob (suffix : string) : M (list path) :=
  fun w =>
    Ret (match tree w with
         | Some fs =>
             map fst (filter (fun pf => ends_with (t suffix) (t (fst pf))) fs)
         | None => []
         end) w.

Fixpoint lookup (p : path) (fs : list (path * file)) : option file :=
  match fs with
  | [] => None
  | (q, f) :: fs' => if String.eqb q p then Some f else lookup p fs'
  end.

Fixpoint store (p : path) (f : file) (fs : list (path * file))
  : list (path * file) :=
  match fs with
  | [] => [(p, f)]
  | (q, g) :: fs' =>
      if String.eqb q p then (q, f) :: fs' else (q, g) :: store p f fs'
  end.

(** [open(p).read()] *)
Definition read (p : path) : M text :=
  fun w =>
    match tree w with
    | Some fs =>
        match lookup p fs with
        | Some f => Ret (content f) w
        | None => Raise w
        end
    | None => Raise w
    end.

(** [open(p, 'w').write(c)] *)
Definition write (p : path) (c : text) : M unit :=
  fun w =>
    match tree w with
    | Some fs =>
        Ret tt (mkWorld (Some (store p (mkFile c (clock w)) fs))
                        (S (clock w)) (stdout w))
    | None => Raise w
    end.

(** [for p in ps: if body(p): n += 1] *)
Fixpoint count_changed (body : path -> M bool) (ps : list path) (n : nat)
  : M nat :=
  match ps with
  | [] => ret n
  | p :: ps' =>
      do b <- body p ;
      count_changed body ps' (if b then S n else n)
  end.

(** The exit status of the interpreter. *)
Definition exit_status {A} (o : outcome A) : nat :=
  match o with
  | Ret _ _ => 0
  | Exit code _ => code
  | Raise _ => 1
  end.

Definition final {A} (o : outcome A) : world :=
  match o with
  | Ret _ w => w
  | Exit _ w => w
  | Raise w => w
  end.

(** ** [astpool_to_lpbox.py] *)

Definition process_file1 (filepath : path) : M bool :=
  do _ <- print (Processing filepath) ;
  do original <- read filepath ;
  let content := Pass1.transform original in
  (* Only write if changed *)
  if negb (text_eqb content original) then
    do _ <- write filepath content ; ret true
  else ret false.

Definition main1 : M unit :=
  do e <- root_exists ;
  if negb e then
    do _ <- print ErrorNotFound ; exit 1
  else
    do _ <- print Running ;
    (* Process all .rs files *)
    do ps <- glob ".rs" ;
    do modified <- count_changed process_file1 ps 0 ;
    do _ <- print (Complete modified) ;
    print NextSteps.

(** ** [fix_gen_signatures.py] *)

(** The body of the inner loop of [main]. *)
Definition process_path2 (p : path) : M bool :=
  do content <- read p ;
  let (changed, new_content) := Pass2.fix_gen_file content in
  if changed then
    do _ <- write p new_content ; do _ <- print (Fixed p) ; ret true
  else ret false.

Definition main2 : M unit :=
  do ps1 <- glob "_gen.rs" ;
  do fixed <- count_changed process_path2 ps1 0 ;
  do ps2 <- glob "_types.rs" ;
  do fixed <- count_changed process_path2 ps2 fixed ;
  print (FixedTotal fixed).

(** ** [fix_imports.py] *)

Definition process_file3 (p : path) : M bool :=
  do content <- read p ;
  let (changed, new_content) := Pass3.fix_imports content in
  if changed then
    do _ <- write p new_content ; do _ <- print (Fixed p) ; ret true
  else ret false.

Definition main3 : M unit :=
  do ps <- glob ".rs" ;
  do fixed <- count_changed process_file3 ps 0 ;
  print (FixedTotal fixed).

End Run.

(* ================================================================== *)
(** * Vocabulary of the statements *)

(** [p] occurs in [s]. *)
Definition occurs (p s : text) : Prop :=
  exists pre post, s = pre ++ p ++ post.

(** The occurrence of [p] after [pre] is the leftmost one of
    [pre ++ p ++ post]: no occurrence starts inside [pre]. *)
Definition leftmost (p pre : text) : Prop :=
  ~ occurs p (pre ++ removelast p).

(** The character before the position reached after reading [l]. *)
Definition prev_after (l : text) (prev : option ascii) : option ascii :=
  fold_left (fun _ c => Some c) l prev.

(** Every occurrence of the identifier [name] in [s] is a whole
    identifier: no word character stands before or after it.  [prev] is
    the character before [s]. *)
Definition whole_only (name : text) (prev : option ascii) (s : text) : Prop :=
  forall pre post,
    s = pre ++ name ++ post ->
    word_before (prev_after pre prev) = false /\ word_after post = false.

(** The file at [p] is [f], bytes and modification time. *)
Definition on_disk (p : Run.path) (f : Run.file) (w : Run.world) : Prop :=
  exists fs, Run.tree w = Some fs /\ Run.lookup p fs = Some f.

(** [whole_only], decided. *)
Fixpoint whole_onlyb (name : text) (prev : option ascii) (s : text) : bool :=
  (if starts_with name s
   then negb (word_before prev) && negb (word_after (skipn (length name) s))
   else true)
  && match s with
     | [] => true
     | c :: s' => whole_onlyb name (Some c) s'
     end.

(** [name] stands at the position [(prev, s)] as a whole identifier. *)
Definition whole_at (name : text) (prev : option ascii) (s : text) : bool :=
  negb (word_before prev) && starts_with name s
  && negb (word_after (skipn (length name) s)).

(** The scan of [re.sub(r'\bL\b', R, content)] from a position on. *)
Definition rename (L R : string) (prev : option ascii) (s : text) : text :=
  sub_go (WordB ;; Lit L ;; WordB) [TLit R] None 0 prev s.

(** [needs ls r]: whatever [r] matches, the match reads a literal of
    the pattern that holds one of the texts of [ls]. *)
Fixpoint needs (ls : list text) (r : regex) : bool :=
  match r with
  | Lit l => existsb (fun x => contains x (t l)) ls
  | Seq r1 r2 => needs ls r1 || needs ls r2
  | Alt r1 r2 => needs ls r1 && needs ls r2
  | Group _ r1 => needs ls r1
  | Look r1 => needs ls r1
  | Cls _ | Star _ | Opt _ | WordB | Eol => false
  end.

(** Every occurrence of [name] in [s] has a word character before or
    after it: [name] occurs only inside longer identifiers. *)
Definition never_whole (name : text) (prev : option ascii) (s : text) : Prop :=
  forall pre post,
    s = pre ++ name ++ post ->
    word_before (prev_after pre prev) = true \/ word_after post = true.

(** [r] holds no [\b]: what it matches does not depend on the
    character before the position. *)
Fixpoint no_boundary (r : regex) : bool :=
  match r with
  | WordB => false
  | Opt r1 | Group _ r1 | Look r1 => no_boundary r1
  | Seq r1 r2 | Alt r1 r2 => no_boundary r1 && no_boundary r2
  | Lit _ | Cls _ | Star _ | Eol => true
  end.

(** A Pass with the rules [tr] changes the text of [f]. *)
Definition changes (tr : text -> text) (f : Run.file) : bool :=
  negb (text_eqb (tr (Run.content f)) (Run.content f)).

(** The number of paths among [ps] whose file in [fs] the rules [tr]
    change. *)
Definition hits (tr : text -> text) (fs : list (Run.path * Run.file))
  (ps : list Run.path) : nat :=
  length (filter (fun q => match Run.lookup q fs with
                           | Some g => changes tr g
                           | None => false
                           end) ps).

(** [p] is one of the paths [ps]. *)
Definition among (ps : list Run.path) (p : Run.path) : bool :=
  existsb (String.eqb p) ps.

(** [never_whole], decided. *)
Fixpoint never_wholeb (name : text) (prev : option ascii) (s : text) : bool :=
  (if starts_with name s
   then word_before prev || word_after (skipn (length name) s)
   else true)
  && match s with
     | [] => true
     | c :: s' => never_wholeb name (Some c) s'
     end.

(** At no position of [s] does [name] stand as a whole identifier. *)
Definition nowhere_whole (name : text) (prev : option ascii) (s : text)
  : Prop :=
  forall pre post,
    s = pre ++ post -> whole_at name (prev_after pre prev) post = false.

(** The texts step 8 of Pass 1 looks for and inserts. *)
Definition IMPORT : text := t "use lp_pool::LpBox".
Definition ANCHOR : text := t "extern crate alloc;".
Definition USE : text := nl :: t "use ".
Definition STATEMENT : text := t "use lp_pool::LpBox;".

(* ================================================================== *)
(** * Basic facts on texts *)

Section TextFacts.

Lemma text_eqb_refl (a : text) : text_eqb a a = true.
Proof.
  induction a as [|x a IH]; simpl; [reflexivity|].
  now rewrite Ascii.eqb_refl, IH.
Qed.

Lemma text_eqb_eq (a b : text) : text_eqb a b = true <-> a = b.
Proof.
  split; [|intros ->; apply text_eqb_refl].
  revert b; induction a as [|x a IH]; intros [|y b]; simpl; try easy.
  intros H. apply andb_true_iff in H as [Hx Hab].
  apply Ascii.eqb_eq in Hx. f_equal; auto.
Qed.

Lemma text_eqb_neq (a b : text) : text_eqb a b = false <-> a <> b.
Proof.
  split.
  - intros H E. apply text_eqb_eq in E. congruence.
  - intros H. destruct (text_eqb a b) eqn:E; [|reflexivity].
    apply text_eqb_eq in E. contradiction.
Qed.

Lemma starts_with_app (p r : text) : starts_with p (p ++ r) = true.
Proof.
  induction p as [|c p IH]; simpl; [reflexivity|].
  now rewrite Ascii.eqb_refl, IH.
Qed.

Lemma starts_with_split (p s : text) :
  starts_with p s = true -> s = p ++ skipn (length p) s.
Proof.
  revert s; induction p as [|c p IH]; intros s H; simpl in *; [reflexivity|].
  destruct s as [|x s]; [discriminate|].
  apply andb_true_iff in H as [Hx Hs]. apply Ascii.eqb_eq in Hx. subst x.
  simpl. f_equal. now apply IH.
Qed.

Lemma starts_with_iff (p s : text) :
  starts_with p s = true <-> exists r, s = p ++ r.
Proof.
  split.
  - intros H. eexists. now apply starts_with_split.
  - intros [r ->]. apply starts_with_app.
Qed.

Lemma contains_unfold (p s : text) :
  contains p s =
  starts_with p s || match s with [] => false | _ :: s' => contains p s' end.
Proof. destruct s; reflexivity. Qed.

Lemma contains_starts (p s : text) :
  starts_with p s = true -> contains p s = true.
Proof. intros H. rewrite contains_unfold, H. reflexivity. Qed.

Lemma contains_iff (p s : text) : contains p s = true <-> occurs p s.
Proof.
  split.
  - induction s as [|x s IH]; rewrite contains_unfold; intros H.
    + rewrite orb_false_r in H. apply starts_with_iff in H as [r E].
      exists [], r. exact E.
    + apply orb_true_iff in H as [H|H].
      * apply starts_with_iff in H as [r E]. exists [], r. exact E.
      * destruct (IH H) as (pre & post & ->). now exists (x :: pre), post.
  - intros (pre & post & ->).
    induction pre as [|x pre IH].
    + apply contains_starts. exact (starts_with_app p post).
    + simpl app. rewrite contains_unfold, IH. apply orb_true_r.
Qed.

Lemma contains_false_iff (p s : text) : contains p s = false <-> ~ occurs p s.
Proof.
  rewrite <- contains_iff. destruct (contains p s); intuition congruence.
Qed.

Lemma occurs_tail (p : text) (x : ascii) (s : text) :
  occurs p s -> occurs p (x :: s).
Proof. intros (pre & post & ->). now exists (x :: pre), post. Qed.

Lemma occurs_app_r (p a b : text) : occurs p b -> occurs p (a ++ b).
Proof.
  intros (pre & post & ->). exists (a ++ pre), post.
  now rewrite app_assoc.
Qed.

Lemma occurs_app_l (p a b : text) : occurs p a -> occurs p (a ++ b).
Proof.
  intros (pre & post & ->). exists pre, (post ++ b).
  now rewrite <- !app_assoc.
Qed.

(** A prefix of [a ++ b] that is no longer than [a] is a prefix of [a]. *)
Lemma starts_with_shorter (p a b : text) :
  length p <= length a -> starts_with p (a ++ b) = true ->
  starts_with p a = true.
Proof.
  revert a; induction p as [|c p IH]; intros a Hl H; simpl in *; [reflexivity|].
  destruct a as [|x a]; simpl in *; [lia|].
  apply andb_true_iff in H as [Hx Hs]. rewrite Hx. simpl.
  apply IH; [lia|assumption].
Qed.

Lemma length_removelast (p : text) : p <> [] -> S (length (removelast p)) = length p.
Proof.
  intros H. destruct (exists_last H) as (l & a & ->).
  rewrite removelast_last, length_app. simpl. lia.
Qed.

(** At a position before the leftmost occurrence the text does not
    start with [p]. *)
Lemma leftmost_head (p : text) (x : ascii) (pre post : text) :
  p <> [] -> leftmost p (x :: pre) ->
  starts_with p ((x :: pre) ++ p ++ post) = false.
Proof.
  intros Hp Hl.
  destruct (starts_with p ((x :: pre) ++ p ++ post)) eqn:E; [|reflexivity].
  exfalso. apply Hl.
  assert (Hsplit : p ++ post = removelast p ++ (skipn (length (removelast p)) p ++ post)).
  { rewrite app_assoc. f_equal.
    rewrite <- (firstn_skipn (length (removelast p)) p) at 1.
    f_equal. clear -Hp. destruct (exists_last Hp) as (l & a & ->).
    rewrite removelast_last. rewrite firstn_app, firstn_all, Nat.sub_diag.
    simpl. now rewrite app_nil_r. }
  rewrite Hsplit, app_assoc in E.
  apply starts_with_shorter in E.
  - apply starts_with_iff in E as [r E]. exists [], r. exact E.
  - pose proof (length_removelast Hp). rewrite length_app. simpl. lia.
Qed.

Lemma leftmost_tail (p : text) (x : ascii) (pre : text) :
  leftmost p (x :: pre) -> leftmost p pre.
Proof. intros H O. apply H. simpl. now apply occurs_tail. Qed.

(** An occurrence has a leftmost one. *)
Lemma occurs_leftmost (p s : text) :
  p <> [] -> occurs p s ->
  exists pre post, s = pre ++ p ++ post /\ leftmost p pre.
Proof.
  intros Hp. induction s as [|x s IH]; intros O.
  - destruct O as (pre & post & E).
    destruct pre; [|discriminate]. destruct p; [congruence|discriminate].
  - destruct (starts_with p (x :: s)) eqn:E.
    + apply starts_with_iff in E as [r E]. exists [], r. split; [exact E|].
      intros (pre & post & E'). simpl in E'.
      apply (f_equal (@length ascii)) in E'.
      rewrite !length_app in E'. pose proof (length_removelast Hp). lia.
    + assert (O' : occurs p s).
      { destruct O as (pre & post & E').
        destruct pre as [|y pre].
        - simpl in E'. rewrite E', starts_with_app in E. discriminate.
        - injection E' as -> ->. now exists pre, post. }
      destruct (IH O') as (pre & post & -> & Hl).
      exists (x :: pre), post. split; [reflexivity|].
      intros (pre' & post' & E').
      destruct pre' as [|y pre'].
      * simpl in E'.
        assert (S : starts_with p ((x :: pre) ++ p ++ post) = true).
        { apply starts_with_iff.
          destruct (exists_last Hp) as (l & a & Hla).
          rewrite Hla, removelast_last in E'.
          exists (post' ++ a :: post).
          assert (E2 : (x :: pre) ++ l = (l ++ [a]) ++ post') by exact E'.
          rewrite Hla at 1. rewrite <- (app_assoc l [a] post).
          rewrite (app_assoc (x :: pre) l), E2, Hla.
          now rewrite <- !app_assoc. }
        simpl in S, E. congruence.
      * simpl in E'. injection E' as _ E'. apply Hl. now exists pre', post'.
Qed.

Lemma replace_first_unfold (old new s : text) :
  replace_first old new s =
  if starts_with old s then new ++ skipn (length old) s
  else match s with
       | [] => []
       | c :: s' => c :: replace_first old new s'
       end.
Proof. destruct s; reflexivity. Qed.

(** [replace_first] rewrites the leftmost occurrence. *)
Lemma replace_first_leftmost (old new pre post : text) :
  old <> [] -> leftmost old pre ->
  replace_first old new (pre ++ old ++ post) = pre ++ new ++ post.
Proof.
  intros Ho. induction pre as [|x pre IH]; intros Hl.
  - rewrite replace_first_unfold. simpl app.
    rewrite starts_with_app, skipn_app, skipn_all, Nat.sub_diag.
    reflexivity.
  - rewrite replace_first_unfold, (leftmost_head post Ho Hl).
    simpl. f_equal. apply IH. eapply leftmost_tail; eauto.
Qed.

(** A line holding [p], inserted into a text without [p], is the only
    place where the result holds [p]; [a] and [b] are the characters
    around [p] on the inserted line. *)
Lemma inserted_once (p A B : text) (a b : ascii) (pre' post' : text) :
  p <> [] -> ~ In a p -> ~ In b p -> ~ occurs p (A ++ B) ->
  A ++ a :: p ++ b :: B = pre' ++ p ++ post' -> pre' = A ++ [a].
Proof.
  intros Hp Ha Hb Hno E.
  destruct (app_eq_app _ _ _ _ E) as [l [[HA H1]|[Hpre H1]]].
  - exfalso.
    destruct (app_eq_app _ _ _ _ H1) as [l2 [[Hp2 H2]|[Hl H2]]].
    + destruct l2 as [|c l2].
      * rewrite app_nil_r in Hp2. subst l. apply Hno. exists pre', B.
        now rewrite HA, <- app_assoc.
      * injection H2 as <- _. apply Ha. rewrite Hp2.
        apply in_or_app. right. now left.
    + apply Hno. exists pre', (l2 ++ B).
      now rewrite HA, Hl, <- !app_assoc.
  - destruct l as [|c l].
    + exfalso. simpl in H1. destruct p as [|x p]; [congruence|].
      injection H1 as <- _. apply Ha. now left.
    + injection H1 as <- H1.
      enough (l = []) by (subst l; exact Hpre).
      destruct (app_eq_app _ _ _ _ H1) as [l3 [[Hp3 H3]|[Hl3 H3]]].
      * destruct (app_eq_app _ _ _ _ H3) as [l4 [[Hp4 H4]|[Hl4 H4]]].
        -- destruct l4 as [|c l4].
           ++ rewrite app_nil_r in Hp4.
              apply (f_equal (@length ascii)) in Hp3.
              rewrite length_app, <- Hp4 in Hp3.
              destruct l; [reflexivity|simpl in Hp3; lia].
           ++ exfalso. injection H4 as <- _. apply Hb. rewrite Hp4.
              apply in_or_app. right. now left.
        -- apply (f_equal (@length ascii)) in Hp3.
           rewrite Hl4, !length_app in Hp3.
           destruct l; [reflexivity|simpl in Hp3; lia].
      * exfalso. destruct l3 as [|c l3].
        -- simpl in H3. destruct p as [|x p]; [congruence|].
           injection H3 as <- _. apply Hb. now left.
        -- injection H3 as _ H3. apply Hno. exists (A ++ l3), post'.
           now rewrite H3, <- app_assoc.
Qed.

End TextFacts.

(* ================================================================== *)
(** * Facts on the matcher and on [re.sub] *)

Section MatcherFacts.

Lemma lit_spec (l : text) (prev : option ascii) (s : text) :
  lit l prev s =
  if starts_with l s then Some (prev_after l prev, skipn (length l) s)
  else None.
Proof.
  revert prev s; induction l as [|c l IH]; intros prev s; simpl.
  - reflexivity.
  - destruct s as [|x s]; [reflexivity|].
    destruct (Ascii.eqb x c) eqn:E; simpl; [|reflexivity].
    apply Ascii.eqb_eq in E. subst x. apply IH.
Qed.

Lemma m_Lit (l : string) prev s cs (kont : cont) :
  m (Lit l) prev s cs kont =
  if starts_with (t l) s
  then kont (prev_after (t l) prev) (skipn (length (t l)) s) cs
  else None.
Proof.
  simpl. rewrite lit_spec. destruct (starts_with (t l) s); reflexivity.
Qed.

Lemma m_Seq r1 r2 prev s cs (kont : cont) :
  m (Seq r1 r2) prev s cs kont =
  m r1 prev s cs (fun p' s' cs' => m r2 p' s' cs' kont).
Proof. reflexivity. Qed.

Lemma m_Star k prev s cs (kont : cont) :
  m (Star k) prev s cs kont = star k prev s cs kont.
Proof. reflexivity. Qed.

Lemma m_Group n r prev s cs (kont : cont) :
  m (Group n r) prev s cs kont =
  m r prev s cs
    (fun p' s' cs' => kont p' s' ((n, firstn (length s - length s') s) :: cs')).
Proof. reflexivity. Qed.

Lemma m_WordB prev s cs (kont : cont) :
  m WordB prev s cs kont =
  if xorb (word_before prev) (word_after s) then kont prev s cs else None.
Proof. reflexivity. Qed.

(** The text a group captured when it read the literal [l]. *)
Lemma captured_lit (l s : text) :
  starts_with l s = true ->
  firstn (length s - length (skipn (length l) s)) s = l.
Proof.
  intros H. apply starts_with_split in H.
  rewrite H at 1 3. rewrite length_app, Nat.add_sub.
  rewrite firstn_app, firstn_all, Nat.sub_diag. simpl. apply app_nil_r.
Qed.

(** A successful [star] hands some suffix of the text to its
    continuation; a [star] whose continuation fails on every suffix
    fails. *)
Lemma star_some k prev s cs (kont : cont) r :
  star k prev s cs kont = Some r ->
  exists n p', kont p' (skipn n s) cs = Some r.
Proof.
  revert prev; induction s as [|x s IH]; intros prev H; simpl in H.
  - now exists 0, prev.
  - destruct (in_cls k x).
    + destruct (star k (Some x) s cs kont) eqn:E.
      * injection H as <-. destruct (IH _ E) as (n & p' & Hk).
        now exists (S n), p'.
      * now exists 0, prev.
    + now exists 0, prev.
Qed.

Lemma star_none k prev s cs (kont : cont) :
  (forall n p', kont p' (skipn n s) cs = None) ->
  star k prev s cs kont = None.
Proof.
  intros H. destruct (star k prev s cs kont) eqn:E; [|reflexivity].
  apply star_some in E as (n & p' & E). rewrite H in E. discriminate.
Qed.

Lemma occurs_skipn (p : text) (n : nat) (s : text) :
  occurs p (skipn n s) -> occurs p s.
Proof.
  intros H. rewrite <- (firstn_skipn n s). now apply occurs_app_r.
Qed.

(** [,\s*name] only matches where [name] occurs. *)
Lemma list_item_match (name : string) adv prev s r :
  match_at adv (Lit "," ;; Star Space ;; Lit name) prev s = Some r ->
  occurs (t name) s.
Proof.
  unfold match_at. rewrite m_Seq, m_Lit.
  destruct (starts_with (t ",") s); [|discriminate].
  rewrite m_Seq, m_Star.
  intros H. apply star_some in H as (n & p' & H).
  rewrite m_Lit in H.
  destruct (starts_with (t name) _) eqn:E; [|discriminate].
  apply contains_starts, contains_iff in E.
  eapply occurs_skipn, occurs_skipn, E.
Qed.

(** A pattern that matches at no position of [s] leaves [s] as it is. *)
Lemma sub_go_no_match r tp count prev s :
  (forall p post, (exists pre, s = pre ++ post) ->
                  match_at false r p post = None) ->
  sub_go r tp count 0 prev s = s.
Proof.
  revert prev; induction s as [|c s IH]; intros prev H; simpl.
  - rewrite (H prev []) by (now exists []).
    destruct (exhausted count); reflexivity.
  - destruct (exhausted count); [reflexivity|].
    rewrite (H prev (c :: s)) by (now exists []).
    f_equal. apply IH. intros p post [pre ->].
    apply H. now exists (c :: pre).
Qed.

Lemma sub_no_occurrence (name : string) tp s :
  ~ occurs (t name) s ->
  sub (Lit "," ;; Star Space ;; Lit name) tp s = s.
Proof.
  intros H. apply sub_go_no_match. intros p post [pre ->].
  destruct (match_at _ _ _ _) eqn:E; [|reflexivity].
  exfalso. apply H. apply list_item_match in E. now apply occurs_app_r.
Qed.

Lemma sub_go_cons r tp count prev c s :
  sub_go r tp count 0 prev (c :: s) =
  if exhausted count then c :: s
  else
    match match_at false r prev (c :: s) with
    | None => c :: sub_go r tp count 0 (Some c) s
    | Some (rest, cs) =>
        match length (c :: s) - length rest with
        | S n => expand tp cs ++ sub_go r tp (dec count) n (Some c) s
        | 0 =>
            expand tp cs ++
            (if exhausted (dec count) then c :: s
             else
               match match_at true r prev (c :: s) with
               | Some (rest2, cs2) =>
                   expand tp cs2 ++
                   sub_go r tp (dec (dec count))
                     (length (c :: s) - length rest2 - 1) (Some c) s
               | None => c :: sub_go r tp (dec count) 0 (Some c) s
               end)
        end
    end.
Proof. reflexivity. Qed.

(** Once the count of [re.sub] is used up, the rest of the match in
    progress is dropped and what follows is copied. *)
Lemma sub_go_drop r tp prev (l post : text) :
  sub_go r tp (Some 0) (length l) prev (l ++ post) = post.
Proof.
  revert prev; induction l as [|c l IH]; intros prev; simpl.
  - destruct post; reflexivity.
  - apply IH.
Qed.

(** Inside a match the scan only drops characters. *)
Lemma sub_go_skip r tp count prev (l post : text) :
  sub_go r tp count (length l) prev (l ++ post) =
  sub_go r tp count 0 (prev_after l prev) post.
Proof.
  revert prev; induction l as [|c l IH]; intros prev; simpl.
  - reflexivity.
  - apply IH.
Qed.

End MatcherFacts.

(* ================================================================== *)
(** * The passes on the scenarios of the specification *)

Import Run.

(** Literal scenario 1 of the specification. *)
Example pass1_scenario_deref :
  Pass1.transform (t "let x = pool.expr(n);") = t "let x = n;".
Proof. vm_compute. reflexivity. Qed.

(** A trailing [mut pool: AstPool] parameter is removed. *)
Example pass1_trailing_mut_pool :
  Pass1.transform (t "fn f(x: ExprId, mut pool: AstPool) -> ExprId")
  = t "fn f(x: Expr) -> Expr".
Proof. vm_compute. reflexivity. Qed.

(** C1 (every Pass is idempotent), evaluated on the code.  The first run
    of Pass 1 turns [Box<Expr>] into [LpBox<Expr>]; the pattern
    [Box<Expr>] carries no word boundary and matches again inside
    [LpBox<Expr>], so the second run rewrites the file to
    [LpLpBox<Expr>], writes it and reports it as modified.  Pass 2 and
    Pass 3 change their own output too, on [gen_x_id_id] and on two
    adjacent [AstPool] entries of a list. *)
Theorem pass1_second_run_rewrites_LpBox :
  let T := t "fn f(b: Box<Expr>) {}" in
  let T1 := t "fn f(b: LpBox<Expr>) {}" in
  let T2 := t "fn f(b: LpLpBox<Expr>) {}" in
  Pass1.transform T = T1 /\
  Pass1.transform T1 = T2 /\
  process_file1 "a.rs" (mkWorld (Some [("a.rs"%string, mkFile T1 0)]) 1 [])
  = Ret true (mkWorld (Some [("a.rs"%string, mkFile T2 1)]) 2 [Processing "a.rs"]) /\
  Pass2.transform (t "gen_x_id_id") = t "gen_x_id" /\
  Pass2.transform (t "gen_x_id") = t "gen_x" /\
  Pass3.transform (t "{A,AstPool,AstPool,B}") = t "{A, AstPool,B}" /\
  Pass3.transform (t "{A, AstPool,B}") = t "{A, B}".
Proof. vm_compute. repeat split. Qed.

(** C2 (a leading [mut pool: AstPool] parameter is removed), evaluated
    on the code.  The handle types are renamed, but no rule of step 4
    matches a [mut pool: AstPool] that follows the opening parenthesis:
    the parameter stays. *)
Theorem pass1_leading_mut_pool_kept :
  Pass1.transform (t "fn f(mut pool: AstPool, x: ExprId) -> ExprId")
  = t "fn f(mut pool: AstPool, x: Expr) -> Expr".
Proof. vm_compute. reflexivity. Qed.

(** C3 (Pass 2 on a [gen_add_id] signature and on a [gen_expr_id] call
    site), evaluated on the code.  The signature comes out as the claim
    says.  At the call site the rule that drops the [_id] suffix runs
    before the call-site rule, which then finds no [gen_expr_id] to
    match: the [pool] argument stays. *)
Theorem pass2_call_site_keeps_pool :
  Pass2.transform
    (t "fn gen_add_id(&mut self, pool: &AstPool, left: ExprId, right: ExprId)")
  = t "fn gen_add(&mut self, left: &Expr, right: &Expr)" /\
  Pass2.transform (t "self.gen_expr_id(pool, left)")
  = t "self.gen_expr(pool, left)" /\
  sub Pass2.re_call_expr [TLit "self.gen_expr("] (t "self.gen_expr_id(pool, left)")
  = t "self.gen_expr(left)".
Proof. vm_compute. repeat split. Qed.

(** C6 (the Box import is deleted when no use of [Box] remains),
    evaluated on the code.  After the rules the only use of [Box] has
    become [LpBox<Expr>]; the test of step 9 looks for the characters
    [Box<], finds them inside [LpBox<], and the import line stays. *)
Theorem pass1_box_import_kept_for_LpBox :
  let T := t "use alloc::boxed::Box;" ++ nl :: t "fn f(b: Box<Expr>) {}" ++ [nl] in
  let T' := t "use alloc::boxed::Box;" ++ nl :: t "fn f(b: LpBox<Expr>) {}" ++ [nl] in
  Pass1.rules T = T' /\
  contains (t "Box<") T' = true /\
  Pass1.remove_box_import T' = T' /\
  Pass1.transform T = T'.
Proof. vm_compute. repeat split. Qed.

(** C7 (Pass 3 leaves every line that is no import unchanged),
    evaluated on the code.  The lookahead of the [ExprId] rule accepts
    any line with a later comma, closing brace or final semicolon, and
    the [AstPool] rules any bracketed or comma-separated list: a [let]
    statement and a call are rewritten. *)
Theorem pass3_rewrites_statement_lines :
  Pass3.transform (t "let x: ExprId = f(a, b);" ++ [nl])
  = t "let x: Expr = f(a, b);" ++ [nl] /\
  Pass3.transform (t "fn f(s: StmtId) -> u8 { 0 }" ++ [nl])
  = t "fn f(s: Stmt) -> u8 { 0 }" ++ [nl] /\
  Pass3.transform (t "g(a, AstPool, b);" ++ [nl]) = t "g(a,  b);" ++ [nl].
Proof. vm_compute. repeat split. Qed.

(** C9 (every renaming rule of Pass 1 matches whole identifiers only),
    evaluated on the code.  The [ExprId] and [StmtId] rules are bounded
    by [\b] and leave [SubExprIdExtra] alone; the three [Box] rules have
    no boundary and rewrite the end of a longer identifier. *)
Theorem pass1_box_rules_match_inside_identifiers :
  sub Pass1.re_ExprId [TLit "Expr"] (t "SubExprIdExtra") = t "SubExprIdExtra" /\
  sub Pass1.re_BoxExpr [TLit "LpBox<Expr>"] (t "MyBox<Expr>") = t "MyLpBox<Expr>" /\
  sub Pass1.re_BoxStmt [TLit "LpBox<Stmt>"] (t "MyBox<Stmt>") = t "MyLpBox<Stmt>" /\
  sub Pass1.re_BoxNew [TLit "LpBox::try_new("] (t "MyBox::new(x)")
  = t "MyLpBox::try_new(x)" /\
  Pass1.transform (t "let b: MyBox<Expr> = MyBox::new(SubExprIdExtra);")
  = t "let b: MyLpBox<Expr> = MyLpBox::try_new(SubExprIdExtra);".
Proof. vm_compute. repeat split. Qed.

(* ================================================================== *)
(** * The conditional write *)

Section ConditionalWrite.

Lemma lookup_store_other (p q : path) (g : file) (fs : list (path * file)) :
  String.eqb q p = false -> lookup p (store q g fs) = lookup p fs.
Proof.
  intros Hqp. induction fs as [|[k v] fs IH]; cbn [store lookup].
  - now rewrite Hqp.
  - destruct (String.eqb k q) eqn:Hkq; cbn [lookup].
    + apply String.eqb_eq in Hkq. subst k. now rewrite Hqp.
    + now rewrite IH.
Qed.

Variables (p : path) (f : file).

Lemma on_disk_print (l : line) (w : world) :
  on_disk p f w -> on_disk p f (mkWorld (tree w) (clock w) (stdout w ++ [l])).
Proof. intros (fs & Ht & Hl). now exists fs. Qed.

(** A write of a changed text leaves a file alone that the Pass maps to
    itself. *)
Lemma on_disk_write (tr : text -> text) (q : path) (g : file)
  (fs : list (path * file)) (cl : nat) :
  tr (content f) = content f ->
  lookup p fs = Some f -> lookup q fs = Some g ->
  negb (text_eqb (tr (content g)) (content g)) = true ->
  lookup p (store q (mkFile (tr (content g)) cl) fs) = Some f.
Proof.
  intros Hsame Hl Hq Hc.
  destruct (String.eqb q p) eqn:Hqp.
  - apply String.eqb_eq in Hqp. subst q.
    rewrite Hl in Hq. injection Hq as <-.
    rewrite Hsame, text_eqb_refl in Hc. discriminate.
  - now rewrite lookup_store_other.
Qed.

(** The shape shared by the three passes: read, compare, and write
    only a text that differs. *)
Lemma conditional_write_on_disk (tr : text -> text) (after : M bool)
  (q : path) (w : world) :
  tr (content f) = content f ->
  (forall w', on_disk p f w' -> on_disk p f (final (after w'))) ->
  on_disk p f w ->
  on_disk p f
    (final (bind (read q)
              (fun c =>
                 if negb (text_eqb (tr c) c)
                 then bind (write q (tr c)) (fun _ => after)
                 else ret false) w)).
Proof.
  intros Hsame Hafter (fs & Ht & Hl). destruct w as [tree0 cl out].
  cbn [tree] in Ht. subst tree0.
  cbv [bind read write ret tree clock stdout].
  destruct (lookup q fs) as [g|] eqn:Hq; [|now exists fs].
  destruct (negb (text_eqb (tr (content g)) (content g))) eqn:Hc;
    [|now exists fs].
  apply Hafter. eexists. split; [reflexivity|].
  eapply on_disk_write; eauto.
Qed.

Lemma process_file1_on_disk (q : path) (w : world) :
  Pass1.transform (content f) = content f ->
  on_disk p f w -> on_disk p f (final (process_file1 q w)).
Proof.
  intros Hsame Hw.
  apply (on_disk_print (Processing q)) in Hw.
  exact (@conditional_write_on_disk Pass1.transform (ret true) q _
           Hsame (fun _ H => H) Hw).
Qed.

Lemma process_path2_on_disk (q : path) (w : world) :
  Pass2.transform (content f) = content f ->
  on_disk p f w -> on_disk p f (final (process_path2 q w)).
Proof.
  intros Hsame Hw.
  exact (@conditional_write_on_disk Pass2.transform
           (bind (print (Fixed q)) (fun _ => ret true)) q w
           Hsame (fun _ H => on_disk_print (Fixed q) H) Hw).
Qed.

Lemma process_file3_on_disk (q : path) (w : world) :
  Pass3.transform (content f) = content f ->
  on_disk p f w -> on_disk p f (final (process_file3 q w)).
Proof.
  intros Hsame Hw.
  exact (@conditional_write_on_disk Pass3.transform
           (bind (print (Fixed q)) (fun _ => ret true)) q w
           Hsame (fun _ H => on_disk_print (Fixed q) H) Hw).
Qed.

Lemma count_changed_on_disk (body : path -> M bool) :
  (forall q w, on_disk p f w -> on_disk p f (final (body q w))) ->
  forall ps n w,
    on_disk p f w -> on_disk p f (final (count_changed body ps n w)).
Proof.
  intros Hbody ps; induction ps as [|q ps IH]; intros n w Hw.
  - exact Hw.
  - cbn [count_changed]. unfold bind.
    specialize (Hbody q w Hw).
    destruct (body q w) as [b w'|code w'|w']; cbn [final] in *;
      [apply IH|..]; assumption.
Qed.

Lemma main1_on_disk (w : world) :
  Pass1.transform (content f) = content f ->
  on_disk p f w -> on_disk p f (final (main1 w)).
Proof.
  intros Hsame Hw. unfold main1, bind.
  destruct Hw as (fs & Ht & Hl).
  unfold root_exists at 1. rewrite Ht. cbn [negb].
  unfold print at 1. unfold glob at 1. cbn [tree clock stdout]. rewrite Ht.
  match goal with |- context [count_changed ?b ?ps ?n ?w0] =>
    assert (H : on_disk p f (final (count_changed b ps n w0)))
      by (apply count_changed_on_disk;
          [intros; now apply process_file1_on_disk|now exists fs]);
    destruct (count_changed b ps n w0) as [k w'|code w'|w']
  end; cbn [final] in *; assumption.
Qed.

Lemma main2_on_disk (w : world) :
  Pass2.transform (content f) = content f ->
  on_disk p f w -> on_disk p f (final (main2 w)).
Proof.
  intros Hsame Hw. unfold main2, bind. unfold glob at 1.
  match goal with |- context [count_changed ?b ?ps ?n w] =>
    assert (H : on_disk p f (final (count_changed b ps n w)))
      by (apply count_changed_on_disk;
          [intros; now apply process_path2_on_disk|assumption]);
    destruct (count_changed b ps n w) as [k w'|code w'|w']
  end; cbn [final] in *; try assumption.
  unfold glob.
  match goal with |- context [count_changed ?b ?ps ?n w'] =>
    assert (H' : on_disk p f (final (count_changed b ps n w')))
      by (apply count_changed_on_disk;
          [intros; now apply process_path2_on_disk|assumption]);
    destruct (count_changed b ps n w') as [k' w''|code w''|w'']
  end; cbn [final] in *; assumption.
Qed.

Lemma main3_on_disk (w : world) :
  Pass3.transform (content f) = content f ->
  on_disk p f w -> on_disk p f (final (main3 w)).
Proof.
  intros Hsame Hw. unfold main3, bind. unfold glob.
  match goal with |- context [count_changed ?b ?ps ?n w] =>
    assert (H : on_disk p f (final (count_changed b ps n w)))
      by (apply count_changed_on_disk;
          [intros; now apply process_file3_on_disk|assumption]);
    destruct (count_changed b ps n w) as [k w'|code w'|w']
  end; cbn [final] in *; assumption.
Qed.

End ConditionalWrite.



(* ================================================================== *)
(** * A root directory that does not exist *)

(** C4, as the code has it.  Only [astpool_to_lpbox.py] tests the root
    directory: it prints its error line and leaves through [sys.exit(1)]
    before any file is looked at.  [fix_gen_signatures.py] and
    [fix_imports.py] have no such test; their traversal of a missing
    directory yields no path, they print a total of zero files and
    return, which is exit status 0.  No run writes a file. *)
Theorem missing_root_outcomes (w : world) :
  tree w = None ->
  main1 w = Exit 1 (mkWorld None (clock w) (stdout w ++ [ErrorNotFound])) /\
  main2 w = Ret tt (mkWorld None (clock w) (stdout w ++ [FixedTotal 0])) /\
  main3 w = Ret tt (mkWorld None (clock w) (stdout w ++ [FixedTotal 0])).
Proof.
  intros H. destruct w as [tr cl out]. simpl in H. subst tr.
  repeat split.
Qed.

Lemma missing_root_outcomes_witness :
  let w := mkWorld None 3 [] in
  exit_status (main1 w) = 1 /\
  exit_status (main2 w) = 0 /\
  exit_status (main3 w) = 0.
Proof.
  intros w.
  destruct (@missing_root_outcomes w eq_refl) as (H1 & H2 & H3).
  rewrite H1, H2, H3. repeat split.
Defined.

(** C4 as stated fails for Pass 2 and Pass 3: on a missing root they end
    with exit status 0 and print no diagnostic. *)
Lemma missing_root_pass3_exit_status_zero :
  let w := mkWorld None 0 [] in
  tree w = None /\
  ~ (exit_status (main2 w) <> 0) /\
  ~ (exit_status (main3 w) <> 0) /\
  stdout (final (main3 w)) = [FixedTotal 0].
Proof.
  vm_compute. repeat split; intros H; apply H; reflexivity.
Qed.

(* ================================================================== *)
(** * The LpBox import of Pass 1 *)

Section LpBoxImport.

(** [(\n)(use )] matches where the text starts with a newline and
    [use ], and captures the two. *)
Lemma first_use_match prev s :
  match_at false Pass1.re_first_use prev s =
  if starts_with USE s
  then Some (skipn 5 s, [(2, t "use "); (1, [nl])])
  else None.
Proof.
  unfold match_at, Pass1.re_first_use.
  rewrite m_Seq, m_Group, m_Lit.
  assert (HU : starts_with USE s =
               starts_with (t NL) s
               && starts_with (t "use ") (skipn (length (t NL)) s)).
  { destruct s as [|c s]; [reflexivity|].
    change (starts_with USE (c :: s))
      with (Ascii.eqb c nl && starts_with (t "use ") s).
    change (starts_with (t NL) (c :: s)) with (Ascii.eqb c nl && true).
    now rewrite andb_true_r. }
  rewrite HU.
  destruct (starts_with (t NL) s) eqn:E1; [|reflexivity].
  rewrite m_Group, m_Lit.
  destruct (starts_with (t "use ") (skipn (length (t NL)) s)) eqn:E2;
    [|reflexivity].
  rewrite (captured_lit _ _ E1), (captured_lit _ _ E2), skipn_skipn.
  reflexivity.
Qed.

(** With a count of one, the statement goes before the leftmost
    line-initial [use ]. *)
Lemma sub1_first_use prev (pre post : text) :
  leftmost USE pre ->
  sub_go Pass1.re_first_use
    [TRef 1; TLit "use lp_pool::LpBox;"; TLit NL; TRef 2] (Some 1) 0 prev
    (pre ++ USE ++ post)
  = pre ++ nl :: STATEMENT ++ USE ++ post.
Proof.
  revert prev; induction pre as [|x pre IH]; intros prev Hl.
  - change ([] ++ USE ++ post) with (nl :: (t "use " ++ post)).
    rewrite sub_go_cons. cbn [exhausted]. rewrite first_use_match.
    change (nl :: (t "use " ++ post)) with (USE ++ post) at 1 2 3.
    rewrite starts_with_app.
    change (skipn 5 (USE ++ post)) with post.
    assert (HL : length (USE ++ post) - length post = 5)
      by (rewrite length_app; change (length USE) with 5; lia).
    rewrite HL.
    change (sub_go ?r ?tp (dec (Some 1)) 4 ?p (t "use " ++ post))
      with (sub_go r tp (Some 0) (length (t "use ")) p (t "use " ++ post)).
    rewrite sub_go_drop. reflexivity.
  - change ((x :: pre) ++ USE ++ post) with (x :: (pre ++ USE ++ post)).
    rewrite sub_go_cons. cbn [exhausted]. rewrite first_use_match.
    change (x :: (pre ++ USE ++ post)) with ((x :: pre) ++ USE ++ post).
    rewrite (@leftmost_head USE x pre post) by (discriminate || assumption).
    simpl. f_equal. apply IH. eapply leftmost_tail; eauto.
Qed.



End LpBoxImport.

(* ================================================================== *)
(** * The late import-list rules of Pass 1 *)

Section WholeWordRename.

(** The rule [re.sub(r'\bL\b', R, content)] for an identifier [L] whose
    first character [e] occurs in it only once and a shorter identifier
    [R] with the same first character. *)
Variables (L R : string) (e : ascii) (L' R' : text).
Hypothesis HL : t L = e :: L'.
Hypothesis HR : t R = e :: R'.
Hypothesis HLword : forallb is_word (t L) = true.
Hypothesis HLfresh : forallb (fun c => negb (Ascii.eqb c e)) L' = true.
Hypothesis Hshort : length (t R) < length (t L).

Local Abbreviation out := (rename L R).

Lemma word_before_after (l : text) (p : option ascii) :
  l <> [] -> forallb is_word l = true -> word_before (prev_after l p) = true.
Proof.
  revert p; induction l as [|c l IH]; intros p Hne Hw; [congruence|].
  simpl in Hw. apply andb_true_iff in Hw as [Hc Hl].
  destruct l as [|d l]; [exact Hc|].
  change (prev_after (c :: d :: l) p) with (prev_after (d :: l) (Some c)).
  apply IH; [discriminate|assumption].
Qed.

Lemma prev_after_app (a b : text) (p : option ascii) :
  prev_after (a ++ b) p = prev_after b (prev_after a p).
Proof. apply fold_left_app. Qed.

Lemma prev_after_cons (c : ascii) (l : text) (p q : option ascii) :
  prev_after (c :: l) p = prev_after (c :: l) q.
Proof. reflexivity. Qed.

Lemma e_word : is_word e = true.
Proof.
  pose proof HLword as H. rewrite HL in H. simpl in H.
  now apply andb_true_iff in H as [H _].
Qed.

(** [\bL\b] matches exactly where [L] stands as a whole identifier. *)
Lemma word_match prev s :
  match_at false (WordB ;; Lit L ;; WordB) prev s =
  if whole_at (t L) prev s then Some (skipn (length (t L)) s, []) else None.
Proof.
  unfold match_at, whole_at. rewrite m_Seq, m_WordB, m_Seq.
  destruct (starts_with (t L) s) eqn:E.
  - assert (Hs : word_after s = true).
    { apply starts_with_split in E. rewrite E, HL. exact e_word. }
    rewrite Hs, xorb_true_r, andb_true_r.
    destruct (negb (word_before prev)); [|reflexivity].
    rewrite m_Lit, E, m_WordB.
    rewrite word_before_after by (exact HLword || (rewrite HL; discriminate)).
    cbn [xorb andb].
    destruct (word_after (skipn (length (t L)) s)); reflexivity.
  - rewrite andb_false_r. cbn [andb].
    destruct (xorb _ _); [|reflexivity].
    now rewrite m_Lit, E.
Qed.

Lemma whole_at_split prev s :
  whole_at (t L) prev s = true ->
  word_before prev = false /\
  s = e :: L' ++ skipn (length (t L)) s /\
  word_after (skipn (length (t L)) s) = false.
Proof.
  unfold whole_at. intros H.
  apply andb_true_iff in H as [H H3]. apply andb_true_iff in H as [H1 H2].
  apply negb_true_iff in H1, H3. apply starts_with_split in H2.
  repeat split; try assumption.
  rewrite H2 at 1. now rewrite HL.
Qed.

(** One step of the scan. *)
Lemma out_unfold prev s :
  out prev s =
  if whole_at (t L) prev s
  then t R ++ out (prev_after (t L) prev) (skipn (length (t L)) s)
  else match s with
       | [] => []
       | c :: s' => c :: out (Some c) s'
       end.
Proof.
  unfold rename. destruct s as [|c s].
  - cbn [sub_go exhausted]. rewrite word_match.
    assert (E : whole_at (t L) prev [] = false).
    { unfold whole_at. rewrite HL. cbn [starts_with].
      now rewrite andb_false_r. }
    now rewrite E.
  - rewrite sub_go_cons. cbn [exhausted]. rewrite word_match.
    destruct (whole_at (t L) prev (c :: s)) eqn:E; [|reflexivity].
    apply whole_at_split in E as (_ & Hs & _).
    remember (skipn (length (t L)) (c :: s)) as rest eqn:Hrest. clear Hrest.
    injection Hs as -> ->.
    assert (Hlen : length (e :: L' ++ rest) - length rest = S (length L'))
      by (cbn [length]; rewrite length_app; lia).
    rewrite Hlen. cbn [dec expand]. rewrite app_nil_r.
    f_equal. rewrite sub_go_skip. now rewrite HL.
Qed.

(** A prefix of the output without [e] was copied from the input. *)
Lemma out_copies (l : text) prev s :
  forallb (fun c => negb (Ascii.eqb c e)) l = true ->
  starts_with l (out prev s) = true ->
  s = l ++ skipn (length l) s /\
  out prev s = l ++ out (prev_after l prev) (skipn (length l) s).
Proof.
  revert prev s; induction l as [|x l IH]; intros prev s Hf H.
  - now split.
  - cbn [forallb] in Hf. apply andb_true_iff in Hf as [Hx Hf].
    apply negb_true_iff in Hx.
    rewrite out_unfold in H |- *.
    destruct (whole_at (t L) prev s).
    + rewrite HR in H. cbn [app starts_with] in H.
      rewrite Ascii.eqb_sym, Hx in H. discriminate.
    + destruct s as [|c s]; [discriminate|].
      cbn [starts_with] in H. apply andb_true_iff in H as [Hc H].
      apply Ascii.eqb_eq in Hc. subst c.
      destruct (IH (Some x) s Hf H) as [Hs Ho].
      cbn [length skipn]. split.
      * cbn [app]. f_equal. exact Hs.
      * rewrite Ho. reflexivity.
Qed.

(** The output starts with a word character iff the input does. *)
Lemma word_after_out prev s : word_after (out prev s) = word_after s.
Proof.
  rewrite out_unfold. destruct (whole_at (t L) prev s) eqn:E.
  - apply whole_at_split in E as (_ & Hs & _).
    rewrite Hs at 2. rewrite HR. reflexivity.
  - destruct s; reflexivity.
Qed.

Lemma starts_with_long (p a o : text) :
  starts_with p (a ++ o) = true -> length a < length p ->
  exists c l2, p = a ++ c :: l2 /\ starts_with (c :: l2) o = true.
Proof.
  revert p; induction a as [|x a IH]; intros p H Hlen.
  - destruct p as [|c l2]; [simpl in Hlen; lia|]. now exists c, l2.
  - destruct p as [|y p]; [simpl in Hlen; lia|].
    cbn [app starts_with] in H. apply andb_true_iff in H as [Hx H].
    apply Ascii.eqb_eq in Hx. subst y.
    destruct (IH p H) as (c & l2 & -> & H2); [simpl in Hlen; lia|].
    now exists c, l2.
Qed.

(** A text shorter than [L] before a text that starts with no word
    character adds no occurrence of [L]. *)
Lemma short_prefix_adds_none (a o : text) :
  length a < length (t L) -> word_after o = false ->
  contains (t L) o = false -> contains (t L) (a ++ o) = false.
Proof.
  intros Hlen Hw Ho. induction a as [|x a IH]; [exact Ho|].
  cbn [app]. rewrite contains_unfold.
  rewrite IH by (simpl in Hlen; lia). rewrite orb_false_r.
  destruct (starts_with (t L) (x :: a ++ o)) eqn:E; [|reflexivity].
  exfalso.
  destruct (@starts_with_long (t L) (x :: a) o E Hlen) as (c & l2 & Hp & Hs).
  assert (Hc : is_word c = true).
  { pose proof HLword as H. rewrite Hp, forallb_app in H.
    apply andb_true_iff in H as [_ H]. cbn [forallb] in H.
    now apply andb_true_iff in H as [H _]. }
  destruct o as [|y o]; [discriminate|].
  cbn [starts_with] in Hs. apply andb_true_iff in Hs as [Hy _].
  apply Ascii.eqb_eq in Hy. subst y. simpl in Hw. congruence.
Qed.

Lemma whole_only_tail (M : text) prev c s :
  whole_only M prev (c :: s) -> whole_only M (Some c) s.
Proof.
  intros H pre post E. apply (H (c :: pre) post). now rewrite E.
Qed.

Lemma whole_only_skip (M : text) prev (l rest : text) :
  whole_only M prev (l ++ rest) -> whole_only M (prev_after l prev) rest.
Proof.
  intros H pre post E. rewrite <- prev_after_app.
  apply (H (l ++ pre) post). now rewrite E, <- app_assoc.
Qed.

(** The rename leaves no occurrence of [L] in a text where [L] occurs
    only as a whole identifier. *)
Lemma rename_eliminates (n : nat) : forall prev s,
  length s <= n -> whole_only (t L) prev s ->
  contains (t L) (out prev s) = false.
Proof.
  induction n as [|n IH]; intros prev s Hn Hw; rewrite out_unfold.
  - destruct s; [|simpl in Hn; lia].
    replace (whole_at (t L) prev []) with false
      by (unfold whole_at; rewrite HL; cbn [starts_with];
          now rewrite andb_false_r).
    now rewrite HL.
  - destruct (whole_at (t L) prev s) eqn:E.
    + apply whole_at_split in E as (_ & Hs & Hrest).
      remember (skipn (length (t L)) s) as rest eqn:Hr. clear Hr.
      assert (Hs' : s = t L ++ rest) by (now rewrite HL).
      apply short_prefix_adds_none.
      * exact Hshort.
      * now rewrite word_after_out.
      * apply IH.
        -- rewrite Hs in Hn. cbn [length] in Hn.
           rewrite length_app in Hn. lia.
        -- apply whole_only_skip. now rewrite <- Hs'.
    + destruct s as [|c s]; [now rewrite HL|].
      rewrite contains_unfold.
      rewrite IH by (simpl in Hn; lia || eapply whole_only_tail; eauto).
      rewrite orb_false_r.
      destruct (starts_with (t L) (c :: out (Some c) s)) eqn:S1; [|reflexivity].
      exfalso. rewrite HL in S1. cbn [starts_with] in S1.
      apply andb_true_iff in S1 as [Hc S1].
      apply Ascii.eqb_eq in Hc. subst c.
      destruct (out_copies _ _ _ HLfresh S1) as [Hs _].
      assert (Hs' : e :: s = t L ++ skipn (length L') s)
        by (rewrite HL; cbn [app]; now f_equal).
      destruct (Hw [] _ Hs') as [Hb Ha]. cbn in Hb.
      unfold whole_at in E. rewrite Hb in E.
      rewrite Hs' in E at 1. rewrite starts_with_app in E.
      rewrite HL in E. cbn [length skipn negb andb] in E.
      rewrite Ha in E. discriminate.
Qed.

(** ** Another identifier [M] under the rename of [L]

    [M] holds no [e], and its first character [m0] does not occur in
    [R]: the output holds [M] only where it copied the input. *)
Section OtherIdentifier.

Variables (M M' : text) (m0 : ascii).
Hypothesis HM : M = m0 :: M'.
Hypothesis HMfresh : forallb (fun c => negb (Ascii.eqb c e)) M = true.
Hypothesis HRfresh : forallb (fun c => negb (Ascii.eqb c m0)) (t R) = true.

(** An occurrence of [M] in [a ++ o] lies in [o] when [a] holds no
    [m0]. *)
Lemma occurrence_after (a o pre post : text) :
  forallb (fun c => negb (Ascii.eqb c m0)) a = true ->
  a ++ o = pre ++ M ++ post ->
  exists pre', pre = a ++ pre' /\ o = pre' ++ M ++ post.
Proof.
  revert pre; induction a as [|x a IH]; intros pre Ha E.
  - now exists pre.
  - cbn [forallb] in Ha. apply andb_true_iff in Ha as [Hx Ha].
    apply negb_true_iff in Hx.
    destruct pre as [|y pre].
    + rewrite HM in E. injection E as -> _.
      rewrite Ascii.eqb_refl in Hx. discriminate.
    + injection E as -> E. destruct (IH pre Ha E) as (pre' & -> & Ho).
      now exists pre'.
Qed.

(** The rename creates no occurrence of [M]. *)
Lemma rename_creates_none (n : nat) : forall prev s,
  length s <= n -> occurs M (out prev s) -> occurs M s.
Proof.
  induction n as [|n IH]; intros prev s Hn (pre & post & E);
    rewrite out_unfold in E.
  - destruct s; [|simpl in Hn; lia].
    replace (whole_at (t L) prev []) with false in E
      by (unfold whole_at; rewrite HL; cbn [starts_with];
          now rewrite andb_false_r).
    destruct pre; rewrite HM in E; discriminate.
  - destruct (whole_at (t L) prev s) eqn:W.
    + apply whole_at_split in W as (_ & Hs & _).
      remember (skipn (length (t L)) s) as rest eqn:Hr. clear Hr.
      destruct (occurrence_after _ _ _ _ HRfresh E) as (pre' & _ & Ho).
      rewrite Hs. change (e :: L' ++ rest) with ((e :: L') ++ rest).
      apply occurs_app_r. apply (IH (prev_after (t L) prev)).
      * rewrite Hs in Hn. cbn [length] in Hn.
        rewrite length_app in Hn. lia.
      * now exists pre', post.
    + destruct s as [|c s]; [destruct pre; rewrite HM in E; discriminate|].
      destruct pre as [|y pre].
      * assert (S1 : starts_with M (out prev (c :: s)) = true).
        { rewrite out_unfold, W. apply starts_with_iff. now exists post. }
        destruct (out_copies _ _ _ HMfresh S1) as [Hs _].
        exists [], (skipn (length M) (c :: s)). exact Hs.
      * injection E as Hy E. subst y. apply occurs_tail. apply (IH (Some c)).
        -- simpl in Hn. lia.
        -- now exists pre, post.
Qed.

(** The rename keeps the occurrences of [M] whole. *)
Lemma rename_keeps_whole (n : nat) : forall prev s,
  length s <= n -> whole_only M prev s -> whole_only M prev (out prev s).
Proof.
  induction n as [|n IH]; intros prev s Hn Hw pre post E;
    rewrite out_unfold in E.
  - destruct s; [|simpl in Hn; lia].
    replace (whole_at (t L) prev []) with false in E
      by (unfold whole_at; rewrite HL; cbn [starts_with];
          now rewrite andb_false_r).
    destruct pre; rewrite HM in E; discriminate.
  - destruct (whole_at (t L) prev s) eqn:W.
    + apply whole_at_split in W as (_ & Hs & _).
      remember (skipn (length (t L)) s) as rest eqn:Hr. clear Hr.
      assert (Hs' : s = t L ++ rest) by (now rewrite HL).
      destruct (occurrence_after _ _ _ _ HRfresh E) as (pre' & -> & Ho).
      assert (Hrest : whole_only M (prev_after (t L) prev) rest)
        by (apply whole_only_skip; now rewrite <- Hs').
      assert (Hlen : length rest <= n).
      { rewrite Hs in Hn. cbn [length] in Hn.
        rewrite length_app in Hn. lia. }
      destruct (IH _ _ Hlen Hrest _ _ Ho) as [Hb Ha].
      split; [|exact Ha].
      rewrite prev_after_app. destruct pre' as [|c pre'].
      * cbn in Hb |- *.
        rewrite word_before_after in Hb
          by (exact HLword || (rewrite HL; discriminate)).
        discriminate.
      * exact Hb.
    + destruct s as [|c s]; [destruct pre; rewrite HM in E; discriminate|].
      destruct pre as [|y pre].
      * assert (S1 : starts_with M (out prev (c :: s)) = true).
        { rewrite out_unfold, W. apply starts_with_iff. now exists post. }
        destruct (out_copies _ _ _ HMfresh S1) as [Hs Ho].
        rewrite out_unfold, W in Ho.
        cbn [app] in E. rewrite E in Ho.
        apply app_inv_head in Ho. subst post.
        destruct (Hw [] _ Hs) as [Hb Ha].
        split; [exact Hb|]. now rewrite word_after_out.
      * injection E as Hy E. subst y.
        assert (Hs : whole_only M (Some c) s)
          by (eapply whole_only_tail; eauto).
        assert (Hlen : length s <= n) by (simpl in Hn; lia).
        exact (IH _ _ Hlen Hs _ _ E).
Qed.

End OtherIdentifier.

End WholeWordRename.

Section IdImportRules.


Lemma whole_onlyb_sound (name : text) : forall prev s,
  whole_onlyb name prev s = true -> whole_only name prev s.
Proof.
  intros prev s; revert prev; induction s as [|c s IH]; intros prev H pre post E.
  - destruct pre; [|discriminate]. simpl in E.
    cbn [whole_onlyb] in H. rewrite andb_true_r in H.
    rewrite E, starts_with_app in H.
    rewrite skipn_app, skipn_all, Nat.sub_diag in H. cbn [skipn app] in H.
    apply andb_true_iff in H as [H1 H2].
    now apply negb_true_iff in H1, H2.
  - cbn [whole_onlyb] in H. apply andb_true_iff in H as [H0 H].
    destruct pre as [|y pre].
    + cbn [app] in E. rewrite E, starts_with_app in H0.
      rewrite skipn_app, skipn_all, Nat.sub_diag in H0. cbn [skipn app] in H0.
      apply andb_true_iff in H0 as [H1 H2].
      now apply negb_true_iff in H1, H2.
    + injection E as Hy E. subst y. exact (IH _ H _ _ E).
Qed.

(** The renames of step 1 on a text where both handle types occur only
    as whole identifiers: no occurrence of either is left. *)
Lemma rename_types_eliminates (T : text) :
  whole_only (t "ExprId") None T -> whole_only (t "StmtId") None T ->
  ~ occurs (t "ExprId") (Pass1.rename_types T) /\
  ~ occurs (t "StmtId") (Pass1.rename_types T).
Proof.
  intros HE HS. unfold Pass1.rename_types.
  change (sub Pass1.re_ExprId [TLit "Expr"] T)
    with (rename "ExprId" "Expr" None T).
  set (T1 := rename "ExprId" "Expr" None T).
  change (sub Pass1.re_StmtId [TLit "Stmt"] T1)
    with (rename "StmtId" "Stmt" None T1).
  assert (H46 : length (t "Expr") < length (t "ExprId")) by (simpl; lia).
  assert (H46' : length (t "Stmt") < length (t "StmtId")) by (simpl; lia).
  assert (E1 : ~ occurs (t "ExprId") T1).
  { apply contains_false_iff.
    apply (@rename_eliminates "ExprId" "Expr" "E" (t "xprId") (t "xpr")
             eq_refl eq_refl eq_refl eq_refl H46 (length T));
      [apply le_n|exact HE]. }
  assert (S1 : whole_only (t "StmtId") None T1).
  { apply (@rename_keeps_whole "ExprId" "Expr" "E" (t "xprId") (t "xpr")
             eq_refl eq_refl eq_refl H46
             (t "StmtId") (t "tmtId") "S" eq_refl eq_refl eq_refl (length T));
      [apply le_n|exact HS]. }
  split.
  - intros O. apply E1.
    apply (@rename_creates_none "StmtId" "Stmt" "S" (t "tmtId") (t "tmt")
             eq_refl eq_refl eq_refl H46'
             (t "ExprId") (t "xprId") "E" eq_refl eq_refl eq_refl
             (length T1) None T1 (le_n _) O).
  - apply contains_false_iff.
    apply (@rename_eliminates "StmtId" "Stmt" "S" (t "tmtId") (t "tmt")
             eq_refl eq_refl eq_refl eq_refl H46' (length T1));
      [apply le_n|exact S1].
Qed.

(** The two late rules on a text without the handle types. *)
Lemma remove_id_imports_idle (content : text) :
  ~ occurs (t "ExprId") content -> ~ occurs (t "StmtId") content ->
  Pass1.remove_id_imports content = content.
Proof.
  intros HE HS. unfold Pass1.remove_id_imports, Pass1.re_list_ExprId,
    Pass1.re_list_StmtId.
  rewrite (sub_no_occurrence "ExprId" [] HE).
  apply (sub_no_occurrence "StmtId" [] HS).
Qed.



End IdImportRules.

(* ================================================================== *)
(** * Texts without the trigger words of a Pass *)

Section Triggers.

(** A successful match hands a suffix of the text to its continuation. *)
Lemma m_suffix (r : regex) : forall prev s cs (kont : cont) x,
  m r prev s cs kont = Some x ->
  exists p' s' cs' pre, kont p' s' cs' = Some x /\ s = pre ++ s'.
Proof.
  induction r as [l|k|k|r IH|r1 IH1 r2 IH2|r1 IH1 r2 IH2|n r IH|r IH| |];
    intros prev s cs kont x H.
  - rewrite m_Lit in H. destruct (starts_with (t l) s) eqn:E; [|discriminate].
    apply starts_with_split in E. eauto 6.
  - cbn [m] in H. destruct s as [|c s]; [discriminate|].
    destruct (in_cls k c); [|discriminate]. now exists (Some c), s, cs, [c].
  - rewrite m_Star in H. apply star_some in H as (n & p' & H).
    exists p', (skipn n s), cs, (firstn n s). split; [exact H|].
    now rewrite firstn_skipn.
  - cbn [m] in H. destruct (m r prev s cs kont) eqn:E.
    + injection H as ->. eauto.
    + now exists prev, s, cs, [].
  - rewrite m_Seq in H.
    destruct (IH1 _ _ _ _ _ H) as (p1 & s1 & cs1 & pre1 & H1 & ->).
    destruct (IH2 _ _ _ _ _ H1) as (p2 & s2 & cs2 & pre2 & H2 & ->).
    exists p2, s2, cs2, (pre1 ++ pre2). split; [exact H2|].
    now rewrite app_assoc.
  - cbn [m] in H. destruct (m r1 prev s cs kont) eqn:E.
    + injection H as ->. eauto.
    + eauto.
  - rewrite m_Group in H.
    destruct (IH _ _ _ _ _ H) as (p' & s' & cs' & pre & H' & ->). eauto 6.
  - cbn [m] in H. destruct (m r prev s cs _); [|discriminate].
    now exists prev, s, cs, [].
  - rewrite m_WordB in H. destruct (xorb _ _); [|discriminate].
    now exists prev, s, cs, [].
  - cbn [m] in H. destruct (at_eol s); [|discriminate].
    now exists prev, s, cs, [].
Qed.

(** A pattern that needs one of [ls] matches only in a text that holds
    one of them. *)
Lemma needs_sound (ls : list text) (r : regex) : forall prev s cs (kont : cont) x,
  needs ls r = true -> m r prev s cs kont = Some x ->
  exists l, In l ls /\ occurs l s.
Proof.
  induction r as [l|k|k|r IH|r1 IH1 r2 IH2|r1 IH1 r2 IH2|n r IH|r IH| |];
    intros prev s cs kont x N H; cbn [needs] in N; try discriminate.
  - apply existsb_exists in N as (y & Hy & Hc).
    rewrite m_Lit in H. destruct (starts_with (t l) s) eqn:E; [|discriminate].
    apply starts_with_split in E. exists y. split; [exact Hy|].
    rewrite E. apply occurs_app_l. now apply contains_iff.
  - rewrite m_Seq in H. apply orb_true_iff in N as [N|N].
    + eapply IH1; eauto.
    + destruct (m_suffix _ _ _ _ _ H) as (p1 & s1 & cs1 & pre1 & H1 & ->).
      destruct (IH2 _ _ _ _ _ N H1) as (l & Hl & O).
      exists l. split; [exact Hl|]. now apply occurs_app_r.
  - apply andb_true_iff in N as [N1 N2]. cbn [m] in H.
    destruct (m r1 prev s cs kont) eqn:E.
    + eapply IH1; eauto.
    + eapply IH2; eauto.
  - rewrite m_Group in H. eapply IH; eauto.
  - cbn [m] in H.
    destruct (m r prev s cs (fun _ s' cs' => Some (s', cs'))) eqn:E;
      [|discriminate].
    eapply IH; eauto.
Qed.

(** [re.sub] with such a pattern leaves a text without the texts of
    [ls] as it is. *)
Lemma sub_needs (ls : list text) (r : regex) (tp : template) (s : text) :
  needs ls r = true -> (forall l, In l ls -> ~ occurs l s) ->
  sub r tp s = s.
Proof.
  intros N H. apply sub_go_no_match. intros p post [pre ->].
  destruct (match_at false r p post) eqn:E; [|reflexivity].
  exfalso. unfold match_at in E.
  destruct (needs_sound _ _ _ _ _ _ N E) as (l & Hl & O).
  apply (H l Hl). now apply occurs_app_r.
Qed.

Lemma sub_needs1 (l : string) (r : regex) (tp : template) (s : text) :
  needs [t l] r = true -> ~ occurs (t l) s -> sub r tp s = s.
Proof.
  intros N H. apply (sub_needs [t l]); [exact N|].
  intros x [<-|[]]. exact H.
Qed.

(** Pass 1 leaves a text as it is that holds none of [ExprId],
    [StmtId], [Box], [AstPool] and [pool.]: each of its patterns needs
    one of the five, and without a change no import is added. *)
Theorem pass1_keeps_text_without_triggers (T : text) :
  ~ occurs (t "ExprId") T -> ~ occurs (t "StmtId") T ->
  ~ occurs (t "Box") T -> ~ occurs (t "AstPool") T ->
  ~ occurs (t "pool.") T ->
  Pass1.transform T = T.
Proof.
  intros HE HS HB HA HP.
  assert (R : Pass1.rules T = T).
  { unfold Pass1.rules, Pass1.rename_types.
    rewrite (@sub_needs1 "ExprId" Pass1.re_ExprId) by (reflexivity || assumption).
    rewrite (@sub_needs1 "StmtId" Pass1.re_StmtId) by (reflexivity || assumption).
    rewrite (@sub_needs1 "Box" Pass1.re_BoxExpr) by (reflexivity || assumption).
    rewrite (@sub_needs1 "Box" Pass1.re_BoxStmt) by (reflexivity || assumption).
    rewrite (@sub_needs1 "Box" Pass1.re_BoxNew) by (reflexivity || assumption).
    rewrite (@sub_needs1 "AstPool" Pass1.re_pool_param) by (reflexivity || assumption).
    rewrite (@sub_needs1 "AstPool" Pass1.re_pool_first) by (reflexivity || assumption).
    rewrite (@sub_needs1 "AstPool" Pass1.re_pool_only) by (reflexivity || assumption).
    rewrite (@sub_needs1 "AstPool" Pass1.re_ret_Expr) by (reflexivity || assumption).
    rewrite (@sub_needs1 "AstPool" Pass1.re_ret_Stmt) by (reflexivity || assumption).
    rewrite (@sub_needs1 "pool." Pass1.re_pool_expr) by (reflexivity || assumption).
    rewrite (@sub_needs1 "pool." Pass1.re_pool_expr_mut) by (reflexivity || assumption).
    rewrite (@sub_needs1 "pool." Pass1.re_pool_stmt) by (reflexivity || assumption).
    apply (@sub_needs1 "pool." Pass1.re_alloc_expr); (reflexivity || assumption). }
  unfold Pass1.transform, Pass1.before_id_imports. rewrite R.
  assert (A : Pass1.add_lpbox_import T T = T).
  { unfold Pass1.add_lpbox_import. now rewrite text_eqb_refl. }
  rewrite A.
  assert (B : Pass1.remove_box_import T = T).
  { unfold Pass1.remove_box_import.
    destruct (negb _ && negb _); [|reflexivity].
    apply (@sub_needs1 "Box" Pass1.re_Box_import); (reflexivity || assumption). }
  rewrite B.
  unfold Pass1.remove_ast_imports, Pass1.remove_id_imports.
  rewrite (@sub_needs1 "AstPool" Pass1.re_ast_import) by (reflexivity || assumption).
  rewrite (@sub_needs1 "AstPool" Pass1.re_list_AstPool) by (reflexivity || assumption).
  rewrite (@sub_needs1 "ExprId" Pass1.re_list_ExprId) by (reflexivity || assumption).
  apply (@sub_needs1 "StmtId" Pass1.re_list_StmtId); (reflexivity || assumption).
Qed.

Lemma pass1_keeps_text_without_triggers_witness :
  Pass1.transform (t "fn area(w: u32, h: u32) -> u32 { w * h }")
  = t "fn area(w: u32, h: u32) -> u32 { w * h }".
Proof.
  apply pass1_keeps_text_without_triggers;
    apply contains_false_iff; vm_compute; reflexivity.
Defined.

Ltac idle l r :=
  rewrite (@sub_needs1 l r) by (reflexivity || assumption).

(** Pass 2 leaves a text as it is that holds none of [AstPool],
    [ExprId], [StmtId], [gen_] and [pool.], and reports it as not
    changed. *)
Theorem pass2_keeps_text_without_triggers (T : text) :
  ~ occurs (t "AstPool") T -> ~ occurs (t "ExprId") T ->
  ~ occurs (t "StmtId") T -> ~ occurs (t "gen_") T ->
  ~ occurs (t "pool.") T ->
  Pass2.fix_gen_file T = (false, T).
Proof.
  intros HA HE HS HG HP.
  assert (R : Pass2.transform T = T).
  { unfold Pass2.transform.
    idle "AstPool"%string Pass2.re_pool_param.
    idle "AstPool"%string Pass2.re_pool_first.
    idle "ExprId"%string (Pass2.re_param "left" "ExprId").
    idle "ExprId"%string (Pass2.re_param "right" "ExprId").
    idle "ExprId"%string (Pass2.re_param "operand" "ExprId").
    idle "ExprId"%string (Pass2.re_param "expr_id" "ExprId").
    idle "ExprId"%string (Pass2.re_param "expr" "ExprId").
    idle "ExprId"%string (Pass2.re_param "condition" "ExprId").
    idle "ExprId"%string (Pass2.re_param "true_expr" "ExprId").
    idle "ExprId"%string (Pass2.re_param "false_expr" "ExprId").
    idle "ExprId"%string (Pass2.re_param "value" "ExprId").
    idle "StmtId"%string (Pass2.re_param "stmt_id" "StmtId").
    idle "StmtId"%string (Pass2.re_param "stmt" "StmtId").
    idle "StmtId"%string (Pass2.re_param "body" "StmtId").
    idle "StmtId"%string (Pass2.re_param "then_stmt" "StmtId").
    idle "StmtId"%string (Pass2.re_param "else_stmt" "Option<StmtId>").
    idle "StmtId"%string (Pass2.re_param "init" "&Option<StmtId>").
    idle "ExprId"%string (Pass2.re_param "args" "&Vec<ExprId>").
    idle "ExprId"%string (Pass2.re_param "args" "&[ExprId]").
    idle "gen_"%string Pass2.re_gen_id.
    idle "gen_"%string Pass2.re_call_expr.
    idle "gen_"%string Pass2.re_call_stmt.
    idle "pool."%string Pass2.re_pool_expr.
    apply (@sub_needs1 "pool." Pass2.re_pool_stmt);
      (reflexivity || assumption). }
  unfold Pass2.fix_gen_file. now rewrite R, text_eqb_refl.
Qed.

Lemma pass2_keeps_text_without_triggers_witness :
  Pass2.fix_gen_file (t "fn emit(&mut self, op: Opcode) { self.code.push(op) }")
  = (false, t "fn emit(&mut self, op: Opcode) { self.code.push(op) }").
Proof.
  apply pass2_keeps_text_without_triggers;
    apply contains_false_iff; vm_compute; reflexivity.
Defined.

(** Pass 3 leaves a text as it is that holds none of [AstPool],
    [ExprId] and [StmtId], and reports it as not changed. *)
Theorem pass3_keeps_text_without_triggers (T : text) :
  ~ occurs (t "AstPool") T -> ~ occurs (t "ExprId") T ->
  ~ occurs (t "StmtId") T ->
  Pass3.fix_imports T = (false, T).
Proof.
  intros HA HE HS.
  assert (R : Pass3.transform T = T).
  { unfold Pass3.transform.
    idle "AstPool"%string Pass3.re_mid.
    idle "AstPool"%string Pass3.re_last.
    idle "AstPool"%string Pass3.re_first.
    idle "AstPool"%string Pass3.re_only.
    idle "ExprId"%string (Pass3.re_in_list "ExprId").
    apply (@sub_needs1 "StmtId" (Pass3.re_in_list "StmtId"));
      (reflexivity || assumption). }
  unfold Pass3.fix_imports. now rewrite R, text_eqb_refl.
Qed.

Lemma pass3_keeps_text_without_triggers_witness :
  Pass3.fix_imports (t "use crate::compiler::ast::{Expr, Stmt};")
  = (false, t "use crate::compiler::ast::{Expr, Stmt};").
Proof.
  apply pass3_keeps_text_without_triggers;
    apply contains_false_iff; vm_compute; reflexivity.
Defined.

(** The rules of Pass 3 for [ExprId] and [StmtId] look ahead for a
    comma, a closing brace or a semicolon, and its rules for [AstPool]
    read a comma or an opening brace: a text with none of the four
    characters stays as it is, whatever names it holds. *)
Theorem pass3_keeps_text_without_punctuation (T : text) :
  ~ In ","%char T -> ~ In ";"%char T ->
  ~ In "{"%char T -> ~ In "}"%char T ->
  Pass3.transform T = T.
Proof.
  intros HC HS HO HB.
  assert (P : forall l, In l [t ","; t ";"; t "{"; t "}"] -> ~ occurs l T).
  { intros l Hl (pre & post & E).
    assert (I : forall c, In c T <-> In c pre \/ In c l \/ In c post).
    { intros c. rewrite E, !in_app_iff. tauto. }
    cbn [In t list_ascii_of_string] in Hl.
    destruct Hl as [<-|[<-|[<-|[<-|[]]]]];
      [apply HC|apply HS|apply HO|apply HB]; apply I; right; left; now left. }
  unfold Pass3.transform.
  set (ls := [t ","; t ";"; t "{"; t "}"]) in P.
  rewrite (@sub_needs ls Pass3.re_mid _ _ eq_refl P).
  rewrite (@sub_needs ls Pass3.re_last _ _ eq_refl P).
  rewrite (@sub_needs ls Pass3.re_first _ _ eq_refl P).
  rewrite (@sub_needs ls Pass3.re_only _ _ eq_refl P).
  rewrite (@sub_needs ls (Pass3.re_in_list "ExprId") _ _ eq_refl P).
  exact (@sub_needs ls (Pass3.re_in_list "StmtId") _ _ eq_refl P).
Qed.

Lemma pass3_keeps_text_without_punctuation_witness :
  Pass3.transform (t "type Handle = ExprId") = t "type Handle = ExprId".
Proof.
  apply pass3_keeps_text_without_punctuation;
    vm_compute; intuition discriminate.
Defined.

End Triggers.

(* ================================================================== *)
(** * Fixed points of the whole-word renames *)

Section RenameFixpoints.

Variables (L R : string) (e : ascii) (L' R' : text).
Hypothesis HL : t L = e :: L'.
Hypothesis HR : t R = e :: R'.
Hypothesis HLword : forallb is_word (t L) = true.
Hypothesis HRword : forallb is_word (t R) = true.
Hypothesis HLfresh : forallb (fun c => negb (Ascii.eqb c e)) L' = true.
Hypothesis Hshort : length (t R) < length (t L).

Local Abbreviation out := (rename L R).
Local Abbreviation unfold_out := (@out_unfold L R e L' HL HLword Hshort).
Local Abbreviation split_whole := (@whole_at_split L e L' HL).
Local Abbreviation copies :=
  (@out_copies L R e L' R' HL HR HLword Hshort).
Local Abbreviation after_out :=
  (@word_after_out L R e L' R' HL HR HLword Hshort).

Lemma whole_at_nil prev : whole_at (t L) prev [] = false.
Proof.
  unfold whole_at. rewrite HL. cbn [starts_with]. now rewrite andb_false_r.
Qed.

Lemma whole_at_after_word prev s :
  word_before prev = true -> whole_at (t L) prev s = false.
Proof. intros H. unfold whole_at. now rewrite H. Qed.

(** A text where [L] is nowhere whole is a fixed point. *)
Lemma rename_fixed : forall s prev,
  nowhere_whole (t L) prev s -> out prev s = s.
Proof.
  induction s as [|c s IH]; intros prev H; rewrite unfold_out.
  - now rewrite whole_at_nil.
  - pose proof (H [] (c :: s) eq_refl) as H0.
    cbn [prev_after fold_left] in H0. rewrite H0. f_equal. apply IH.
    intros pre post E. apply (H (c :: pre) post). now rewrite E.
Qed.

(** A whole [L] at the head of the output was a whole [L] at the head
    of the input. *)
Lemma whole_head_back prev s :
  whole_at (t L) prev (out prev s) = true -> whole_at (t L) prev s = true.
Proof.
  rewrite unfold_out. destruct (whole_at (t L) prev s) eqn:W; [reflexivity|].
  destruct s as [|c s]; [now rewrite whole_at_nil|].
  intros H. apply split_whole in H as (Hb & Hs & Ha).
  injection Hs as -> Hs.
  assert (S1 : starts_with L' (out (Some e) s) = true)
    by (apply starts_with_iff; eauto).
  destruct (copies _ _ _ HLfresh S1) as [Hs' Ho].
  rewrite HL in Ha. cbn [length skipn] in Ha.
  rewrite Ho, skipn_app, skipn_all, Nat.sub_diag in Ha. cbn [skipn app] in Ha.
  rewrite after_out in Ha.
  rewrite <- W. unfold whole_at. rewrite Hb, HL. cbn [negb andb length skipn].
  rewrite Ha. cbn [starts_with]. rewrite Ascii.eqb_refl.
  rewrite Hs', starts_with_app. reflexivity.
Qed.

(** No whole [L] starts inside a text shorter than [L] that is
    followed by no word character. *)
Lemma no_whole_before_nonword (a o : text) p :
  length a < length (t L) -> word_after o = false ->
  whole_at (t L) p (a ++ o) = false.
Proof.
  intros Hlen Ho.
  destruct (whole_at (t L) p (a ++ o)) eqn:W; [|reflexivity].
  exfalso. unfold whole_at in W.
  apply andb_true_iff in W as [W _]. apply andb_true_iff in W as [_ W].
  destruct (@starts_with_long L R Hshort (t L) a o W Hlen)
    as (c & l2 & Hp & S3).
  assert (Hc : is_word c = true).
  { pose proof HLword as H. rewrite Hp, forallb_app in H.
    apply andb_true_iff in H as [_ H]. cbn [forallb] in H.
    now apply andb_true_iff in H as [H _]. }
  destruct o as [|x o]; [discriminate|].
  cbn [starts_with] in S3. apply andb_true_iff in S3 as [Hx _].
  apply Ascii.eqb_eq in Hx. subst x. simpl in Ho. congruence.
Qed.

(** In the output [L] is nowhere whole. *)
Lemma rename_leaves_none_whole (n : nat) : forall prev s,
  length s <= n -> nowhere_whole (t L) prev (out prev s).
Proof.
  induction n as [|n IH]; intros prev s Hn pre post E.
  - destruct s; [|simpl in Hn; lia].
    rewrite unfold_out, whole_at_nil in E.
    destruct pre; [|discriminate]. cbn [app] in E. subst post.
    apply whole_at_nil.
  - destruct pre as [|y pre].
    { cbn [app] in E. subst post. cbn [prev_after fold_left].
      destruct (whole_at (t L) prev (out prev s)) eqn:W2; [|reflexivity].
      pose proof (whole_head_back _ _ W2) as W.
      rewrite unfold_out, W in W2.
      apply split_whole in W as (_ & _ & Hrest).
      rewrite no_whole_before_nonword in W2;
        [discriminate|exact Hshort|now rewrite after_out]. }
    rewrite unfold_out in E.
    destruct (whole_at (t L) prev s) eqn:W.
    + apply split_whole in W as (_ & Hs & Hrest).
      remember (skipn (length (t L)) s) as rest eqn:Hr. clear Hr.
      assert (Hlen : length rest <= n).
      { rewrite Hs in Hn. cbn [length] in Hn.
        rewrite length_app in Hn. lia. }
      assert (Ho : word_after (out (prev_after (t L) prev) rest) = false)
        by (now rewrite after_out).
      destruct (app_eq_app _ _ _ _ E) as [l [[HRl Hpost]|[Hpre Ho']]].
      * (* the position lies in the copy of R *)
        destruct l as [|z l].
        -- rewrite app_nil_r in HRl. cbn [app] in Hpost. subst post.
           apply whole_at_after_word. rewrite <- HRl.
           apply word_before_after; [rewrite HR; discriminate|exact HRword].
        -- subst post. apply no_whole_before_nonword; [|exact Ho].
           apply (f_equal (@length ascii)) in HRl.
           rewrite length_app in HRl. cbn [length] in HRl |- *. lia.
      * (* the position lies in the output of the rest *)
        destruct l as [|z l].
        -- rewrite app_nil_r in Hpre. cbn [app] in Ho'. subst post.
           apply whole_at_after_word. rewrite Hpre.
           apply word_before_after; [rewrite HR; discriminate|exact HRword].
        -- rewrite Hpre, prev_after_app.
           change (prev_after (z :: l) (prev_after (t R) prev))
             with (prev_after (z :: l) (prev_after (t L) prev)).
           exact (IH _ _ Hlen _ _ Ho').
    + destruct s as [|c s]; [discriminate|].
      injection E as <- E.
      assert (Hlen : length s <= n) by (simpl in Hn; lia).
      exact (IH _ _ Hlen _ _ E).
Qed.

(** The rename is idempotent. *)
Lemma rename_idempotent prev s : out prev (out prev s) = out prev s.
Proof.
  apply rename_fixed.
  exact (@rename_leaves_none_whole (length s) prev s (le_n _)).
Qed.

(** Another identifier [M], without [e] and with a first character
    that does not occur in [R], is nowhere whole in the output if it is
    nowhere whole in the input. *)
Section OtherIdentifierFixed.

Variables (M M' : text) (m0 : ascii).
Hypothesis HM : M = m0 :: M'.
Hypothesis HMfresh : forallb (fun c => negb (Ascii.eqb c e)) M = true.
Hypothesis HRfresh : forallb (fun c => negb (Ascii.eqb c m0)) (t R) = true.

Lemma other_whole_at_nil prev : whole_at M prev [] = false.
Proof.
  unfold whole_at. rewrite HM. cbn [starts_with]. now rewrite andb_false_r.
Qed.

Lemma other_not_in_R (z : ascii) (l o : text) p :
  In z (t R) -> whole_at M p ((z :: l) ++ o) = false.
Proof.
  intros Hz. unfold whole_at. rewrite HM. cbn [app starts_with].
  rewrite forallb_forall in HRfresh. specialize (HRfresh _ Hz).
  apply negb_true_iff in HRfresh. rewrite HRfresh.
  cbn [andb]. now rewrite andb_false_r.
Qed.

Lemma other_whole_head_back prev s :
  whole_at M prev (out prev s) = true -> whole_at M prev s = true.
Proof.
  intros W. unfold whole_at in W.
  apply andb_true_iff in W as [W Ha]. apply andb_true_iff in W as [Hb S1].
  destruct (copies _ _ _ HMfresh S1) as [Hs Ho].
  rewrite Ho, skipn_app, skipn_all, Nat.sub_diag in Ha. cbn [skipn app] in Ha.
  rewrite after_out in Ha.
  unfold whole_at. rewrite Hb, Ha. rewrite Hs at 1.
  now rewrite starts_with_app.
Qed.

Lemma rename_keeps_none_whole (n : nat) : forall prev s,
  length s <= n -> nowhere_whole M prev s -> nowhere_whole M prev (out prev s).
Proof.
  induction n as [|n IH]; intros prev s Hn H pre post E.
  - destruct s; [|simpl in Hn; lia].
    rewrite unfold_out, whole_at_nil in E.
    destruct pre; [|discriminate]. cbn [app] in E. subst post.
    apply other_whole_at_nil.
  - destruct pre as [|y pre].
    { cbn [app] in E. subst post. cbn [prev_after fold_left].
      destruct (whole_at M prev (out prev s)) eqn:W2; [|reflexivity].
      apply other_whole_head_back in W2.
      pose proof (H [] s eq_refl) as H0. cbn [prev_after fold_left] in H0.
      congruence. }
    rewrite unfold_out in E.
    destruct (whole_at (t L) prev s) eqn:W.
    + apply split_whole in W as (_ & Hs & Hrest).
      remember (skipn (length (t L)) s) as rest eqn:Hr. clear Hr.
      assert (Hs' : s = t L ++ rest) by (now rewrite HL).
      assert (Hlen : length rest <= n).
      { rewrite Hs in Hn. cbn [length] in Hn.
        rewrite length_app in Hn. lia. }
      assert (H' : nowhere_whole M (prev_after (t L) prev) rest).
      { intros pre0 post0 E0. rewrite <- prev_after_app.
        apply H. now rewrite Hs', E0, <- app_assoc. }
      assert (Hword : word_before (prev_after (t R) prev) = true)
        by (apply word_before_after; [rewrite HR; discriminate|exact HRword]).
      destruct (app_eq_app _ _ _ _ E) as [l [[HRl Hpost]|[Hpre Ho']]].
      * destruct l as [|z l].
        -- rewrite app_nil_r in HRl. cbn [app] in Hpost. subst post.
           unfold whole_at. now rewrite <- HRl, Hword.
        -- subst post. apply other_not_in_R.
           rewrite HRl. apply in_or_app. right. now left.
      * destruct l as [|z l].
        -- rewrite app_nil_r in Hpre. cbn [app] in Ho'. subst post.
           unfold whole_at. now rewrite Hpre, Hword.
        -- rewrite Hpre, prev_after_app.
           change (prev_after (z :: l) (prev_after (t R) prev))
             with (prev_after (z :: l) (prev_after (t L) prev)).
           exact (IH _ _ Hlen H' _ _ Ho').
    + destruct s as [|c s]; [discriminate|].
      injection E as <- E.
      assert (Hlen : length s <= n) by (simpl in Hn; lia).
      assert (H' : nowhere_whole M (Some c) s).
      { intros pre0 post0 E0. apply (H (c :: pre0) post0). now rewrite E0. }
      exact (IH _ _ Hlen H' _ _ E).
Qed.

End OtherIdentifierFixed.

End RenameFixpoints.

Section RenameTypes.

Lemma never_whole_nowhere (name : text) prev s :
  never_whole name prev s -> nowhere_whole name prev s.
Proof.
  intros H pre post E.
  destruct (whole_at name (prev_after pre prev) post) eqn:W; [|reflexivity].
  exfalso. unfold whole_at in W.
  apply andb_true_iff in W as [W Ha]. apply andb_true_iff in W as [Hb S1].
  apply negb_true_iff in Ha, Hb. apply starts_with_split in S1.
  destruct (H pre (skipn (length name) post)) as [H1|H1].
  - now rewrite E, S1 at 1.
  - congruence.
  - congruence.
Qed.

Lemma never_wholeb_sound (name : text) : forall prev s,
  never_wholeb name prev s = true -> never_whole name prev s.
Proof.
  intros prev s; revert prev; induction s as [|c s IH]; intros prev H pre post E.
  - destruct pre; [|discriminate]. simpl in E.
    cbn [never_wholeb] in H. rewrite andb_true_r in H.
    rewrite E, starts_with_app in H.
    rewrite skipn_app, skipn_all, Nat.sub_diag in H. cbn [skipn app] in H.
    now apply orb_true_iff in H.
  - cbn [never_wholeb] in H. apply andb_true_iff in H as [H0 H].
    destruct pre as [|y pre].
    + cbn [app] in E. rewrite E, starts_with_app in H0.
      rewrite skipn_app, skipn_all, Nat.sub_diag in H0. cbn [skipn app] in H0.
      now apply orb_true_iff in H0.
    + injection E as Hy E. subst y. exact (IH _ H _ _ E).
Qed.

Lemma Expr_shorter : length (t "Expr") < length (t "ExprId").
Proof. simpl; lia. Qed.

Lemma Stmt_shorter : length (t "Stmt") < length (t "StmtId").
Proof. simpl; lia. Qed.

(** Step 1 of Pass 1 spares longer identifiers: a text in which every
    occurrence of [ExprId] and of [StmtId] has a word character before
    or after it comes out as it went in. *)
Theorem renames_spare_longer_identifiers (T : text) :
  never_whole (t "ExprId") None T -> never_whole (t "StmtId") None T ->
  Pass1.rename_types T = T.
Proof.
  intros HE HS. unfold Pass1.rename_types.
  change (sub Pass1.re_ExprId [TLit "Expr"] T)
    with (rename "ExprId" "Expr" None T).
  rewrite (@rename_fixed "ExprId" "Expr" "E" (t "xprId")
             eq_refl eq_refl Expr_shorter T None (never_whole_nowhere HE)).
  change (sub Pass1.re_StmtId [TLit "Stmt"] T)
    with (rename "StmtId" "Stmt" None T).
  exact (@rename_fixed "StmtId" "Stmt" "S" (t "tmtId")
           eq_refl eq_refl Stmt_shorter T None (never_whole_nowhere HS)).
Qed.

Lemma renames_spare_longer_identifiers_witness :
  Pass1.rename_types (t "fn f(a: SubExprIdExtra, b: MyStmtId, c: ExprIdx)")
  = t "fn f(a: SubExprIdExtra, b: MyStmtId, c: ExprIdx)".
Proof.
  apply renames_spare_longer_identifiers;
    apply never_wholeb_sound; reflexivity.
Defined.


End RenameTypes.

(* ================================================================== *)
(** * Whole runs *)

Section Store.

Lemma lookup_in_keys (q : path) (fs : list (path * file)) :
  In q (map fst fs) -> exists g, lookup q fs = Some g.
Proof.
  induction fs as [|[k v] fs IH]; intros H; [destruct H|].
  cbn [lookup]. destruct (String.eqb k q) eqn:E; [eauto|].
  destruct H as [H|H]; [|auto].
  cbn [fst] in H. subst k. rewrite String.eqb_refl in E. discriminate.
Qed.

Lemma lookup_keys (q : path) (g : file) (fs : list (path * file)) :
  lookup q fs = Some g -> In q (map fst fs).
Proof.
  induction fs as [|[k v] fs IH]; intros H; [discriminate|].
  cbn [lookup] in H. destruct (String.eqb k q) eqn:E.
  - apply String.eqb_eq in E. now left.
  - right. auto.
Qed.

Lemma lookup_nodup (p : path) (g : file) (fs : list (path * file)) :
  NoDup (map fst fs) -> In (p, g) fs -> lookup p fs = Some g.
Proof.
  induction fs as [|[k v] fs IH]; intros N H; [destruct H|].
  cbn [map fst] in N. apply NoDup_cons_iff in N as [Nk N].
  cbn [lookup]. destruct H as [H|H].
  - injection H as -> ->. now rewrite String.eqb_refl.
  - destruct (String.eqb k p) eqn:E; [|auto].
    apply String.eqb_eq in E. subst k. exfalso. apply Nk.
    change p with (fst (p, g)). now apply in_map.
Qed.

Lemma lookup_store_same (q : path) (g g0 : file) (fs : list (path * file)) :
  lookup q fs = Some g0 -> lookup q (store q g fs) = Some g.
Proof.
  induction fs as [|[k v] fs IH]; intros H; [discriminate|].
  cbn [lookup store] in *. destruct (String.eqb k q) eqn:E; cbn [lookup].
  - now rewrite E.
  - rewrite E. auto.
Qed.

Lemma store_keys (q : path) (g g0 : file) (fs : list (path * file)) :
  lookup q fs = Some g0 -> map fst (store q g fs) = map fst fs.
Proof.
  induction fs as [|[k v] fs IH]; intros H; [discriminate|].
  cbn [lookup store] in *. destruct (String.eqb k q) eqn:E; cbn [map fst].
  - reflexivity.
  - f_equal. auto.
Qed.

Lemma among_cons (q : path) (ps : list path) (p : path) :
  among (q :: ps) p = String.eqb p q || among ps p.
Proof. reflexivity. Qed.

Lemma among_in (ps : list path) (p : path) : among ps p = true <-> In p ps.
Proof.
  unfold among. rewrite existsb_exists. split.
  - intros (x & Hx & E). apply String.eqb_eq in E. now subst x.
  - intros H. exists p. split; [exact H|apply String.eqb_refl].
Qed.

End Store.

Section Loop.

(** A loop body that reads a file, applies [tr] and writes the file when
    the text has changed, as the three passes do. *)
Variables (tr : text -> text) (body : path -> M bool).
Hypothesis body_spec : forall q w fs g,
  tree w = Some fs -> lookup q fs = Some g ->
  exists w',
    body q w = Ret (changes tr g) w' /\
    tree w' = Some (if changes tr g
                    then store q (mkFile (tr (content g)) (clock w)) fs
                    else fs).

Lemma content_if_changes (g : file) :
  (if changes tr g then tr (content g) else content g) = tr (content g).
Proof.
  unfold changes. destruct (text_eqb (tr (content g)) (content g)) eqn:E;
    [|reflexivity].
  apply text_eqb_eq in E. cbn [negb]. now rewrite E.
Qed.

Lemma loop_spec : forall ps n w fs,
  NoDup ps -> (forall q, In q ps -> In q (map fst fs)) ->
  tree w = Some fs ->
  exists w' fs',
    count_changed body ps n w = Ret (n + hits tr fs ps) w' /\
    tree w' = Some fs' /\
    map fst fs' = map fst fs /\
    forall p g, lookup p fs = Some g ->
      exists g', lookup p fs' = Some g' /\
                 content g' = (if among ps p then tr (content g) else content g).
Proof.
  induction ps as [|q ps IH]; intros n w fs N Hin Ht.
  - exists w, fs. unfold hits. cbn [count_changed filter length ret].
    rewrite Nat.add_0_r. repeat split; [assumption|]. eauto.
  - apply NoDup_cons_iff in N as [Nq N].
    destruct (lookup_in_keys q fs (Hin q (or_introl eq_refl))) as [g Hg].
    destruct (body_spec q w Ht Hg) as (w1 & Hb & Ht1).
    set (fs1 := if changes tr g
                then store q (mkFile (tr (content g)) (clock w)) fs
                else fs) in *.
    assert (K1 : map fst fs1 = map fst fs).
    { unfold fs1. destruct (changes tr g); [|reflexivity].
      eapply store_keys; eauto. }
    assert (O1 : forall p, String.eqb q p = false ->
                           lookup p fs1 = lookup p fs).
    { intros p Hp. unfold fs1. destruct (changes tr g); [|reflexivity].
      now apply lookup_store_other. }
    assert (Hin1 : forall q', In q' ps -> In q' (map fst fs1))
      by (intros q' H'; rewrite K1; apply Hin; now right).
    destruct (IH (if changes tr g then S n else n) w1 fs1 N Hin1 Ht1)
      as (w' & fs' & Hc & Ht' & K' & Hl').
    exists w', fs'. repeat split.
    + cbn [count_changed]. unfold bind. rewrite Hb, Hc. f_equal.
      unfold hits. cbn [filter]. rewrite Hg.
      assert (F : filter (fun q0 => match lookup q0 fs1 with
                                    | Some g0 => changes tr g0
                                    | None => false
                                    end) ps
                  = filter (fun q0 => match lookup q0 fs with
                                      | Some g0 => changes tr g0
                                      | None => false
                                      end) ps).
      { apply filter_ext_in. intros q0 H0. rewrite O1; [reflexivity|].
        destruct (String.eqb q q0) eqn:E; [|reflexivity].
        apply String.eqb_eq in E. subst q0. contradiction. }
      rewrite F. destruct (changes tr g); cbn [length]; lia.
    + exact Ht'.
    + now rewrite K'.
    + intros p g0 Hp. rewrite among_cons.
      destruct (String.eqb p q) eqn:E.
      * apply String.eqb_eq in E. subst p.
        rewrite Hg in Hp. injection Hp as <-.
        assert (Hq1 : exists g1, lookup q fs1 = Some g1 /\
                                 content g1 = tr (content g)).
        { unfold fs1. destruct (changes tr g) eqn:C.
          - eexists. split; [eapply lookup_store_same; eauto|reflexivity].
          - exists g. split; [exact Hg|].
            rewrite <- content_if_changes, C. reflexivity. }
        destruct Hq1 as (g1 & Hg1 & Hc1).
        destruct (Hl' q g1 Hg1) as (g' & Hg' & Hc').
        exists g'. split; [exact Hg'|].
        rewrite Hc'. cbn [orb].
        destruct (among ps q) eqn:A; [|exact Hc1].
        apply among_in in A. contradiction.
      * assert (E' : String.eqb q p = false)
          by (rewrite String.eqb_sym; exact E).
        rewrite <- (O1 p E') in Hp.
        destruct (Hl' p g0 Hp) as (g' & Hg' & Hc').
        exists g'. split; [exact Hg'|exact Hc'].
Qed.

End Loop.

Section Runs.

(** The shape shared by the three passes, with what it returns. *)
Lemma conditional_write_spec (tr : text -> text) (after : M bool)
  (q : path) (w : world) (fs : list (path * file)) (g : file) :
  (forall w0, exists w1, after w0 = Ret true w1 /\ tree w1 = tree w0) ->
  tree w = Some fs -> lookup q fs = Some g ->
  exists w',
    bind (read q)
      (fun c =>
         if negb (text_eqb (tr c) c)
         then bind (write q (tr c)) (fun _ => after)
         else ret false) w
    = Ret (changes tr g) w' /\
    tree w' = Some (if changes tr g
                    then store q (mkFile (tr (content g)) (clock w)) fs
                    else fs).
Proof.
  intros Hafter Ht Hg. destruct w as [tree0 cl out].
  cbn [tree] in Ht. subst tree0.
  cbv [bind read write ret tree clock stdout]. rewrite Hg.
  fold (changes tr g). destruct (changes tr g).
  - destruct (Hafter (mkWorld (Some (store q (mkFile (tr (content g)) cl) fs))
                        (S cl) out)) as (w1 & -> & Ht1).
    exists w1. split; [reflexivity|exact Ht1].
  - eexists. split; reflexivity.
Qed.

Lemma process_file1_spec (q : path) (w : world) (fs : list (path * file))
  (g : file) :
  tree w = Some fs -> lookup q fs = Some g ->
  exists w',
    process_file1 q w = Ret (changes Pass1.transform g) w' /\
    tree w' = Some (if changes Pass1.transform g
                    then store q (mkFile (Pass1.transform (content g)) (clock w)) fs
                    else fs).
Proof.
  intros Ht Hg.
  exact (@conditional_write_spec Pass1.transform (ret true) q
           (mkWorld (tree w) (clock w) (stdout w ++ [Processing q])) fs g
           (fun w0 => ex_intro _ w0 (conj eq_refl eq_refl)) Ht Hg).
Qed.

Lemma announce_spec (q : path) (w0 : world) :
  exists w1,
    bind (print (Fixed q)) (fun _ => ret true) w0 = Ret true w1 /\
    tree w1 = tree w0.
Proof. eexists. split; reflexivity. Qed.

Lemma process_path2_spec (q : path) (w : world) (fs : list (path * file))
  (g : file) :
  tree w = Some fs -> lookup q fs = Some g ->
  exists w',
    process_path2 q w = Ret (changes Pass2.transform g) w' /\
    tree w' = Some (if changes Pass2.transform g
                    then store q (mkFile (Pass2.transform (content g)) (clock w)) fs
                    else fs).
Proof.
  intros Ht Hg.
  exact (@conditional_write_spec Pass2.transform _ q w fs g
           (announce_spec q) Ht Hg).
Qed.

Lemma process_file3_spec (q : path) (w : world) (fs : list (path * file))
  (g : file) :
  tree w = Some fs -> lookup q fs = Some g ->
  exists w',
    process_file3 q w = Ret (changes Pass3.transform g) w' /\
    tree w' = Some (if changes Pass3.transform g
                    then store q (mkFile (Pass3.transform (content g)) (clock w)) fs
                    else fs).
Proof.
  intros Ht Hg.
  exact (@conditional_write_spec Pass3.transform _ q w fs g
           (announce_spec q) Ht Hg).
Qed.

(** ** The paths a traversal yields *)

End Runs.

Section Traversal.

Variable suffix : string.

Local Abbreviation sel :=
  (fun pf : path * file => ends_with (t suffix) (t (fst pf))).
Local Abbreviation found := (fun fs => map fst (filter sel fs)).

Lemma lookup_in (p : path) (g : file) (fs : list (path * file)) :
  lookup p fs = Some g -> In (p, g) fs.
Proof.
  induction fs as [|[k v] fs IH]; intros H; [discriminate|].
  cbn [lookup] in H. destruct (String.eqb k p) eqn:E.
  - apply String.eqb_eq in E. injection H as ->. subst k. now left.
  - right. auto.
Qed.

Lemma found_keys fs q : In q (found fs) -> In q (map fst fs).
Proof.
  rewrite !in_map_iff. intros (pf & E & H).
  apply filter_In in H as [H _]. eauto.
Qed.

Lemma found_nodup fs : NoDup (map fst fs) -> NoDup (found fs).
Proof.
  induction fs as [|pf fs IH]; intros N; [constructor|].
  cbn [map] in N. apply NoDup_cons_iff in N as [Nk N].
  cbn [filter]. destruct (ends_with (t suffix) (t (fst pf))); [|auto].
  cbn [map]. constructor; [|auto].
  intros H. apply Nk. now apply (found_keys fs).
Qed.

Lemma among_found fs p g :
  lookup p fs = Some g ->
  among (found fs) p = ends_with (t suffix) (t p).
Proof.
  intros Hl. destruct (ends_with (t suffix) (t p)) eqn:E.
  - apply among_in. apply in_map_iff. exists (p, g). split; [reflexivity|].
    apply filter_In. split; [now apply lookup_in|exact E].
  - destruct (among (found fs) p) eqn:A; [|reflexivity].
    apply among_in, in_map_iff in A as ([k v] & Ek & H).
    apply filter_In in H as [_ H]. cbn [fst] in Ek, H. subst k. congruence.
Qed.

Lemma hits_found (tr : text -> text) fs :
  NoDup (map fst fs) ->
  hits tr fs (found fs)
  = length (filter (fun pf : path * file =>
                    ends_with (t suffix) (t (fst pf))
                    && changes tr (snd pf)) fs).
Proof.
  intros N. unfold hits.
  assert (G : forall l,
    (forall pf, In pf l -> lookup (fst pf) fs = Some (snd pf)) ->
    length (filter (fun q => match lookup q fs with
                             | Some g => changes tr g
                             | None => false
                             end) (map fst (filter sel l)))
    = length (filter (fun pf : path * file =>
                      ends_with (t suffix) (t (fst pf))
                      && changes tr (snd pf)) l)).
  { induction l as [|pf l IH]; intros H; [reflexivity|].
    cbn [filter]. destruct (ends_with (t suffix) (t (fst pf))) eqn:E;
      cbn [map filter]; rewrite ?E; cbn [andb].
    - rewrite (H pf (or_introl eq_refl)).
      destruct (changes tr (snd pf)); cbn [length];
        rewrite IH by (intros; apply H; now right); reflexivity.
    - apply IH. intros; apply H; now right. }
  apply G. intros [k v] H. now apply lookup_nodup.
Qed.

End Traversal.

Section EntryPoints.


Ltac use_loop Hc :=
  match goal with |- context [count_changed ?b ?ps ?n ?w0] =>
    match type of Hc with ?lhs = _ =>
      change (count_changed b ps n w0) with lhs
    end
  end;
  rewrite Hc.




(** No name ends in [_gen.rs] and in [_types.rs]. *)
Lemma gen_types_disjoint (x : text) :
  ends_with (t "_gen.rs") x = true -> ends_with (t "_types.rs") x = false.
Proof.
  unfold ends_with.
  change (rev (t "_gen.rs")) with (t "sr.neg_").
  change (rev (t "_types.rs")) with (t "sr.sepyt_").
  intros H. destruct (rev x) as [|c1 [|c2 [|c3 [|c4 y]]]];
    cbn [t list_ascii_of_string starts_with] in H |- *;
    try (rewrite ?andb_false_r in H; discriminate H).
  apply andb_true_iff in H as [_ H]. apply andb_true_iff in H as [_ H].
  apply andb_true_iff in H as [_ H]. apply andb_true_iff in H as [H _].
  apply Ascii.eqb_eq in H. subst c4.
  now rewrite !andb_false_r.
Qed.

(** The traversal depends on the paths only. *)
Lemma found_by_keys (suffix : string) (fs : list (path * file)) :
  map fst (filter (fun pf : path * file =>
                     ends_with (t suffix) (t (fst pf))) fs)
  = filter (fun q : path => ends_with (t suffix) (t q)) (map fst fs).
Proof.
  induction fs as [|pf fs IH]; [reflexivity|].
  cbn [filter map]. destruct (ends_with (t suffix) (t (fst pf)));
    cbn [map]; now rewrite IH.
Qed.

Lemma count_disjoint (A : Type) (P Q C : A -> bool) (l : list A) :
  (forall x, P x = true -> Q x = false) ->
  length (filter (fun x => P x && C x) l)
  + length (filter (fun x => Q x && C x) l)
  = length (filter (fun x => (P x || Q x) && C x) l).
Proof.
  intros D. induction l as [|x l IH]; [reflexivity|].
  cbn [filter]. destruct (P x) eqn:EP.
  - rewrite (D x EP). cbn [orb andb].
    destruct (C x); cbn [length]; lia.
  - cbn [orb andb]. destruct (Q x && C x); cbn [length]; lia.
Qed.



End EntryPoints.

(* ================================================================== *)
(** * Single rules on the calls they are written for *)

Section ScanFacts.

(** A greedy [k*] before a text that starts with no character of [k]
    reads all of [w] when what follows the star matches there. *)
Lemma star_greedy k prev (w rest : text) cs (kont : cont) r :
  forallb (in_cls k) w = true ->
  match rest with x :: _ => in_cls k x = false | [] => True end ->
  kont (prev_after w prev) rest cs = Some r ->
  star k prev (w ++ rest) cs kont = Some r.
Proof.
  revert prev; induction w as [|c w IH]; intros prev Hw Hrest Hk.
  - cbn [app]. destruct rest as [|x rest]; [exact Hk|].
    cbn [star]. now rewrite Hrest.
  - cbn [forallb] in Hw. apply andb_true_iff in Hw as [Hc Hw].
    cbn [app star]. rewrite Hc.
    now rewrite (IH (Some c) Hw Hrest Hk).
Qed.

(** The text a group captured when it read [w]. *)
Lemma captured (w rest : text) :
  firstn (length (w ++ rest) - length rest) (w ++ rest) = w.
Proof.
  rewrite length_app, Nat.add_sub, firstn_app, firstn_all, Nat.sub_diag.
  apply app_nil_r.
Qed.

(** A match of the non-empty text [l] is replaced, and the scan goes on
    behind it. *)
Lemma sub_go_match r tp prev (l rest : text) cs :
  l <> [] -> match_at false r prev (l ++ rest) = Some (rest, cs) ->
  sub_go r tp None 0 prev (l ++ rest)
  = expand tp cs ++ sub_go r tp None 0 (prev_after l prev) rest.
Proof.
  intros Hl Hm. destruct l as [|c l]; [congruence|].
  cbn [app]. rewrite sub_go_cons. cbn [exhausted].
  change (c :: l ++ rest) with ((c :: l) ++ rest). rewrite Hm.
  assert (E : length ((c :: l) ++ rest) - length rest = S (length l))
    by (rewrite length_app; cbn [length]; lia).
  rewrite E. cbn [dec]. now rewrite sub_go_skip.
Qed.

(** Before the leftmost occurrence of the literal a pattern starts with,
    the scan copies. *)
Lemma sub_go_leftmost r tp (lt : text) : forall (a : text) prev (s : text),
  lt <> [] ->
  (forall p x, starts_with lt x = false -> match_at false r p x = None) ->
  leftmost lt a ->
  sub_go r tp None 0 prev (a ++ lt ++ s)
  = a ++ sub_go r tp None 0 (prev_after a prev) (lt ++ s).
Proof.
  induction a as [|c a IH]; intros prev s Hlt Hr Hl; [reflexivity|].
  change ((c :: a) ++ lt ++ s) with (c :: (a ++ lt ++ s)).
  rewrite sub_go_cons. cbn [exhausted].
  change (c :: (a ++ lt ++ s)) with ((c :: a) ++ lt ++ s).
  rewrite Hr by (now apply leftmost_head).
  cbn [app]. f_equal. apply IH; try assumption.
  eapply leftmost_tail; eauto.
Qed.

Lemma star_prev k : forall s p q cs (k1 k2 : cont),
  (forall p1 p2 s' cs', k1 p1 s' cs' = k2 p2 s' cs') ->
  star k p s cs k1 = star k q s cs k2.
Proof.
  induction s as [|x s IH]; intros p q cs k1 k2 H; cbn [star]; [apply H|].
  destruct (in_cls k x); [|apply H].
  rewrite (IH (Some x) (Some x) cs k1 k2 H).
  destruct (star k (Some x) s cs k2); [reflexivity|apply H].
Qed.

(** A pattern without [\b] matches the same whatever stands before the
    position. *)
Lemma m_prev (r : regex) : forall p q s cs (k1 k2 : cont),
  no_boundary r = true ->
  (forall p1 p2 s' cs', k1 p1 s' cs' = k2 p2 s' cs') ->
  m r p s cs k1 = m r q s cs k2.
Proof.
  induction r as [l|k|k|r IH|r1 IH1 r2 IH2|r1 IH1 r2 IH2|n r IH|r IH| |];
    intros p q s cs k1 k2 N H; cbn [no_boundary] in N; try discriminate.
  - rewrite !m_Lit. destruct (starts_with (t l) s); [apply H|reflexivity].
  - cbn [m]. destruct s as [|x s]; [reflexivity|].
    destruct (in_cls k x); [apply H|reflexivity].
  - rewrite !m_Star. now apply star_prev.
  - cbn [m]. rewrite (IH p q s cs k1 k2 N H).
    destruct (m r q s cs k2); [reflexivity|apply H].
  - apply andb_true_iff in N as [N1 N2]. rewrite !m_Seq.
    apply IH1; [exact N1|]. intros p1 p2 s' cs'. now apply IH2.
  - apply andb_true_iff in N as [N1 N2]. cbn [m].
    rewrite (IH1 p q s cs k1 k2 N1 H).
    destruct (m r1 q s cs k2); [reflexivity|now apply IH2].
  - rewrite !m_Group. apply IH; [exact N|]. intros. apply H.
  - cbn [m].
    rewrite (IH p q s cs (fun _ s' cs' => Some (s', cs'))
               (fun _ s' cs' => Some (s', cs')) N) by reflexivity.
    destruct (m r q s cs _); [apply H|reflexivity].
  - cbn [m]. destruct (at_eol s); [apply H|reflexivity].
Qed.

Lemma match_at_prev (r : regex) adv p q s :
  no_boundary r = true -> match_at adv r p s = match_at adv r q s.
Proof. intros N. unfold match_at. now apply m_prev. Qed.

Lemma sub_go_prev (r : regex) tp :
  no_boundary r = true ->
  forall s count skip p q,
    sub_go r tp count skip p s = sub_go r tp count skip q s.
Proof.
  intros N. induction s as [|c s IH]; intros count skip p q.
  - cbn [sub_go]. now rewrite (@match_at_prev r false p q [] N).
  - cbn [sub_go]. destruct skip; [|reflexivity].
    rewrite (@match_at_prev r false p q (c :: s) N).
    now rewrite (@match_at_prev r true p q (c :: s) N).
Qed.

End ScanFacts.

Section CallRules.

Lemma lit_first_no_match (l : string) (r : regex) p x :
  starts_with (t l) x = false -> match_at false (Lit l ;; r) p x = None.
Proof. intros H. unfold match_at. now rewrite m_Seq, m_Lit, H. Qed.

Lemma skipn_lit (l rest : text) : skipn (length l) (l ++ rest) = rest.
Proof. now rewrite skipn_app, skipn_all, Nat.sub_diag. Qed.

(** [name(\w+)\)] on [name], an identifier and a closing parenthesis. *)
Lemma deref_match (name : string) prev (w b : text) :
  w <> [] -> forallb is_word w = true ->
  match_at false (Lit name ;; Group 1 (Plus Word) ;; Lit ")") prev
    (t name ++ w ++ t ")" ++ b)
  = Some (b, [(1, w)]).
Proof.
  intros Hw Hword. destruct w as [|c w]; [congruence|].
  cbn [forallb] in Hword. apply andb_true_iff in Hword as [Hc Hword].
  unfold match_at, Plus.
  rewrite m_Seq, m_Lit, starts_with_app, skipn_lit.
  rewrite m_Seq, m_Group, m_Seq.
  cbn [m app in_cls]. rewrite Hc.
  apply star_greedy; [assumption|reflexivity|].
  rewrite lit_spec, starts_with_app, skipn_lit.
  change (c :: w ++ t ")" ++ b) with ((c :: w) ++ t ")" ++ b).
  rewrite captured. reflexivity.
Qed.

Lemma deref_rule (name : string) (a w b : text) :
  t name <> [] -> leftmost (t name) a ->
  w <> [] -> forallb is_word w = true ->
  sub (Lit name ;; Group 1 (Plus Word) ;; Lit ")") [TRef 1]
    (a ++ t name ++ w ++ t ")" ++ b)
  = a ++ w ++ sub (Lit name ;; Group 1 (Plus Word) ;; Lit ")") [TRef 1] b.
Proof.
  intros Hn Hl Hw Hword. unfold sub.
  rewrite (@sub_go_leftmost _ _ (t name)); try assumption;
    [|intros; now apply lit_first_no_match].
  f_equal.
  assert (E : t name ++ w ++ t ")" ++ b = (t name ++ w ++ t ")") ++ b)
    by (now rewrite <- !app_assoc).
  rewrite E, (@sub_go_match _ _ _ _ _ [(1, w)]).
  - cbn [expand group Nat.eqb]. rewrite app_nil_r. f_equal.
    now apply sub_go_prev.
  - destruct (t name); [congruence|discriminate].
  - rewrite <- E. now apply deref_match.
Qed.

(** The dereference rules of Pass 1 and Pass 2, on every identifier: the
    leftmost [pool.expr(w)], [pool.expr_mut(w)] or [pool.stmt(w)] with an
    identifier [w] becomes [w], the text before it is copied and the
    text behind it is rewritten by the same rule. *)
Theorem deref_rules_unwrap_identifiers (a w b : text) :
  w <> [] -> forallb is_word w = true ->
  (leftmost (t "pool.expr(") a ->
   sub Pass1.re_pool_expr [TRef 1] (a ++ t "pool.expr(" ++ w ++ t ")" ++ b)
   = a ++ w ++ sub Pass1.re_pool_expr [TRef 1] b) /\
  (leftmost (t "pool.expr_mut(") a ->
   sub Pass1.re_pool_expr_mut [TRef 1]
     (a ++ t "pool.expr_mut(" ++ w ++ t ")" ++ b)
   = a ++ w ++ sub Pass1.re_pool_expr_mut [TRef 1] b) /\
  (leftmost (t "pool.stmt(") a ->
   sub Pass1.re_pool_stmt [TRef 1] (a ++ t "pool.stmt(" ++ w ++ t ")" ++ b)
   = a ++ w ++ sub Pass1.re_pool_stmt [TRef 1] b) /\
  (leftmost (t "pool.expr(") a ->
   sub Pass2.re_pool_expr [TRef 1] (a ++ t "pool.expr(" ++ w ++ t ")" ++ b)
   = a ++ w ++ sub Pass2.re_pool_expr [TRef 1] b) /\
  (leftmost (t "pool.stmt(") a ->
   sub Pass2.re_pool_stmt [TRef 1] (a ++ t "pool.stmt(" ++ w ++ t ")" ++ b)
   = a ++ w ++ sub Pass2.re_pool_stmt [TRef 1] b).
Proof.
  intros Hw Hword. repeat split; intros Hl;
    apply deref_rule; try assumption; discriminate.
Qed.

Lemma deref_rules_unwrap_identifiers_witness :
  sub Pass1.re_pool_expr [TRef 1]
    (t "f(" ++ t "pool.expr(" ++ t "lhs" ++ t ")" ++ t ", rhs)")
  = t "f(" ++ t "lhs" ++ sub Pass1.re_pool_expr [TRef 1] (t ", rhs)").
Proof.
  refine (proj1 (@deref_rules_unwrap_identifiers
                   (t "f(") (t "lhs") (t ", rhs)") _ eq_refl) _).
  - discriminate.
  - apply contains_false_iff. vm_compute. reflexivity.
Defined.

Lemma m_Cls k prev x (s : text) cs (kont : cont) :
  m (Cls k) prev (x :: s) cs kont =
  if in_cls k x then kont (Some x) s cs else None.
Proof. reflexivity. Qed.

(** [k+] reads a non-empty run [w] of [k] before a text that starts with
    no character of [k]. *)
Lemma m_Plus_greedy k prev (w rest : text) cs (kont : cont) r :
  w <> [] -> forallb (in_cls k) w = true ->
  match rest with x :: _ => in_cls k x = false | [] => True end ->
  kont (prev_after w prev) rest cs = Some r ->
  m (Plus k) prev (w ++ rest) cs kont = Some r.
Proof.
  intros Hw Hk Hrest Hkont. destruct w as [|c w]; [congruence|].
  cbn [forallb] in Hk. apply andb_true_iff in Hk as [Hc Hk].
  unfold Plus. rewrite m_Seq. cbn [app]. rewrite m_Cls, Hc, m_Star.
  now apply star_greedy.
Qed.

(** [pool\.alloc_expr\(([^,]+),\s*([^)]+)\)\?] on a call with two
    arguments. *)
Lemma alloc_match prev (k ws s b : text) :
  k <> [] -> forallb (in_cls (Not ",")) k = true ->
  forallb is_space ws = true ->
  s <> [] -> forallb (in_cls (Not ")")) s = true ->
  match s with x :: _ => is_space x = false | [] => True end ->
  match_at false Pass1.re_alloc_expr prev
    (t "pool.alloc_expr(" ++ k ++ t "," ++ ws ++ s ++ t ")?" ++ b)
  = Some (b, [(2, s); (1, k)]).
Proof.
  intros Hk Hkc Hws Hs Hsc Hsp.
  unfold match_at, Pass1.re_alloc_expr.
  rewrite m_Seq, m_Lit, starts_with_app, skipn_lit, m_Seq, m_Group.
  apply m_Plus_greedy; [assumption|assumption|reflexivity|].
  rewrite m_Seq, m_Lit, starts_with_app, skipn_lit, m_Seq, m_Star.
  apply star_greedy; [assumption| |].
  { destruct s as [|x s]; [congruence|exact Hsp]. }
  rewrite m_Seq, m_Group.
  apply m_Plus_greedy; [assumption|assumption|reflexivity|].
  rewrite m_Lit, starts_with_app, skipn_lit, !captured. reflexivity.
Qed.



(** A star that has read [w] may stop behind it when stopping there
    matches, wherever a longer run would end. *)
Lemma star_reads k prev (w rest : text) cs (kont : cont) r :
  forallb (in_cls k) w = true ->
  star k (prev_after w prev) rest cs kont = Some r ->
  star k prev (w ++ rest) cs kont = Some r.
Proof.
  revert prev; induction w as [|c w IH]; intros prev Hw Hk; [exact Hk|].
  cbn [forallb] in Hw. apply andb_true_iff in Hw as [Hc Hw].
  cbn [app star]. rewrite Hc. now rewrite (IH (Some c) Hw Hk).
Qed.

Lemma gen_id_no_match p x :
  starts_with (t "gen_") x = false -> match_at false Pass2.re_gen_id p x = None.
Proof.
  intros H. unfold match_at, Pass2.re_gen_id. rewrite m_Seq, m_WordB.
  destruct (xorb _ _); [|reflexivity]. now rewrite m_Seq, m_Lit, H.
Qed.

Lemma nonword_not_underscore (b : text) :
  word_after b = false -> starts_with (t "_id") b = false.
Proof.
  destruct b as [|x b]; [reflexivity|]. cbn [word_after]. intros H.
  change (starts_with (t "_id") (x :: b))
    with (Ascii.eqb x "_" && starts_with (t "id") b).
  destruct (Ascii.eqb_spec x "_") as [->|]; [discriminate H|reflexivity].
Qed.

(** A greedy [\w*] that ran over [_id] backs off it when what follows
    the star needs [_id] first. *)
Lemma star_backs_off p (b : text) cs (kont : cont) r :
  word_after b = false ->
  (forall q x cs', starts_with (t "_id") x = false -> kont q x cs' = None) ->
  kont p (t "_id" ++ b) cs = Some r ->
  star Word p (t "_id" ++ b) cs kont = Some r.
Proof.
  intros Hb Hfail Hk.
  assert (E3 : star Word (Some "d"%char) b cs kont = None).
  { destruct b as [|x b]; cbn [star]; [now apply Hfail|].
    cbn [word_after] in Hb. cbn [in_cls]. rewrite Hb.
    apply Hfail. now apply nonword_not_underscore. }
  change (t "_id" ++ b) with ("_"%char :: "i"%char :: "d"%char :: b) in *.
  cbn [star in_cls].
  change (is_word "_") with true; change (is_word "i") with true;
    change (is_word "d") with true. cbv iota.
  rewrite E3, (Hfail (Some "i"%char) ("d"%char :: b) cs eq_refl).
  rewrite (Hfail (Some "_"%char) ("i"%char :: "d"%char :: b) cs eq_refl).
  exact Hk.
Qed.

(** [\bgen_(\w+)_id\b] on a whole identifier [gen_w_id]: the group backs
    off the suffix, also when [w] itself ends in [_id]. *)
Lemma gen_id_match prev (w b : text) :
  word_before prev = false ->
  w <> [] -> forallb is_word w = true -> word_after b = false ->
  match_at false Pass2.re_gen_id prev (t "gen_" ++ w ++ t "_id" ++ b)
  = Some (b, [(1, w)]).
Proof.
  intros Hp Hw Hword Hb. destruct w as [|c w]; [congruence|].
  cbn [forallb] in Hword. apply andb_true_iff in Hword as [Hc Hword].
  unfold match_at, Pass2.re_gen_id, Plus.
  rewrite m_Seq, m_WordB, Hp. cbn [xorb word_after app t].
  change (is_word "g") with true. cbv iota.
  change ("g"%char :: "e"%char :: "n"%char :: "_"%char :: c :: w ++ t "_id" ++ b)
    with (t "gen_" ++ c :: w ++ t "_id" ++ b).
  rewrite m_Seq, m_Lit, starts_with_app, skipn_lit.
  rewrite m_Seq, m_Group, m_Seq, m_Cls. cbn [in_cls]. rewrite Hc, m_Star.
  apply star_reads; [assumption|].
  apply star_backs_off; [assumption| |].
  - intros q x cs' H. now rewrite m_Seq, m_Lit, H.
  - rewrite m_Seq, m_Lit, starts_with_app, skipn_lit, m_WordB.
    change (prev_after (t "_id") (prev_after w (Some c))) with (Some "d"%char).
    cbn [word_before]. change (is_word "d") with true. rewrite Hb.
    cbn [xorb andb].
    change (c :: w ++ t "_id" ++ b) with ((c :: w) ++ t "_id" ++ b).
    rewrite captured. reflexivity.
Qed.

Lemma gen_id_scan_after_word tp p (b : text) :
  word_after b = false ->
  sub_go Pass2.re_gen_id tp None 0 p b = sub_go Pass2.re_gen_id tp None 0 None b.
Proof.
  intros Hb. destruct b as [|x b].
  - cbn [sub_go exhausted]. now rewrite !gen_id_no_match.
  - assert (N : starts_with (t "gen_") (x :: b) = false).
    { cbn [word_after] in Hb.
      change (starts_with (t "gen_") (x :: b))
        with (Ascii.eqb x "g" && starts_with (t "en_") b).
      destruct (Ascii.eqb_spec x "g") as [->|]; [discriminate Hb|reflexivity]. }
    rewrite !sub_go_cons. cbn [exhausted]. now rewrite !gen_id_no_match.
Qed.



End CallRules.
